(** * tgd_header::detail::file — ownership of one OS file descriptor

    A shallow embedding of [include/tgd_header/file.hpp] and the properties
    of its resource-ownership contract.

    The class holds a single [int m_fd].  Its member functions mutate the
    object they are called on, mutate a second object in the move
    operations, call into the operating system and throw
    [std::system_error].  The embedding therefore is a small monad over
      - a store of objects (addresses mapped to [file] values), so that
        [this] and [other] are distinct places and not copies,
      - the state of the platform, changed only through its primitives,
      - a log of the platform calls made, with their return values,
    and with an outcome that is a normal return, a thrown exception or a
    fault (failed [assert], use of an object outside its lifetime,
    [std::terminate]). *)

From stdpp Require Import gmap strings list.

Open Scope Z_scope.

(** ** Values of the C++ types involved *)

(** [std::system_error{code, std::system_category(), what_arg}]. *)
Record system_error := SystemError {
  code : Z;
  what_arg : string
}.

(** The one field of [struct stat] that the class reads. *)
Record stat := Stat { st_size : Z }.

(** [static_cast<std::size_t>] of a 64-bit signed integer ([off_t],
    [__int64]); [std::size_t] has 64 bits on the LP64 and LLP64 data
    models. *)
Definition size_t_bits : Z := 64.
Definition static_cast_size_t (x : Z) : Z := x mod 2 ^ size_t_bits.

(** The value of [_invalid_parameter_handler] function pointers: the CRT's
    default, the do-nothing static member of
    [disable_invalid_parameter_handler], or some handler of the program. *)
Inductive crt_handler :=
| crt_default_handler
| invalid_parameter_handler
| crt_user_handler (id : nat).

(** [_CRT_ASSERT] of <crtdbg.h>. *)
Definition _CRT_ASSERT : Z := 2.

(** ** The platform *)

(** The primitives the header calls.  Each takes the state of the platform
    and gives the value the C function returns with the new state; [errno]
    is read from the state. *)
Class Platform (world : Type) := {
  get_errno : world → Z;
  sys_open : string → Z → list Z → world → Z * world;
  sys_close : Z → world → Z * world;
  sys_fstat : Z → world → Z * stat * world;
  sys_filelengthi64 : Z → world → Z * world;
  sys_set_thread_local_invalid_parameter_handler :
    crt_handler → world → crt_handler * world;
  sys_CrtSetReportMode : Z → Z → world → Z * world
}.

(** A platform call as it appears in the log: arguments and returned
    value. *)
Inductive syscall :=
| call_open (filename : string) (flags : Z) (args : list Z) (ret : Z)
| call_close (fd : Z) (ret : Z)
| call_fstat (fd : Z) (ret : Z)
| call_filelengthi64 (fd : Z) (ret : Z)
| call_set_invalid_parameter_handler (h old : crt_handler)
| call_CrtSetReportMode (report_type mode old : Z).

(** ** Objects *)

(** [int m_fd].  The class copies the value and compares it with 0 and 2
    and does no arithmetic on it, so that the [int] is an integer with no
    wrap-around to write out; what holds for every integer holds for every
    [int]. *)
Record file := File { m_fd : Z }.

Definition loc := nat.

(** A place in the store holds an object within its lifetime or one whose
    destructor has run. *)
Inductive slot :=
| Live (f : file)
| Dead.

Inductive outcome (A : Type) :=
| Normal (a : A)
| Thrown (e : system_error)
| Fault.
Arguments Normal {A} a.
Arguments Thrown {A} e.
Arguments Fault {A}.

(** ** A reference platform

    A small file system with a descriptor table, on which the class can be
    run: files are named byte strings, an open descriptor has a path and a
    cursor, and the C runtime has its invalid-parameter handler and its
    report mode for [_CRT_ASSERT]. *)

Definition ENOENT : Z := 2.
Definition EBADF : Z := 9.
Definition EOVERFLOW : Z := 75.
Definition O_CREAT : Z := 64.

Record ref_world := RefWorld {
  disk : gmap string string;
  descriptors : gmap Z (string * Z);
  last_errno : Z;
  crt_handler_now : crt_handler;
  crt_report_mode : Z
}.

Definition set_errno (e : Z) (w : ref_world) : ref_world :=
  RefWorld (disk w) (descriptors w) e (crt_handler_now w) (crt_report_mode w).

Definition set_descriptors (d : gmap Z (string * Z)) (w : ref_world) : ref_world :=
  RefWorld (disk w) d (last_errno w) (crt_handler_now w) (crt_report_mode w).

(** The lowest descriptor not in use, searched upwards from [n]. *)
Fixpoint lowest_free (d : gmap Z (string * Z)) (n : Z) (fuel : nat) : Z :=
  match fuel with
  | O => n
  | S k => match d !! n with
           | None => n
           | Some _ => lowest_free d (n + 1) k
           end
  end.

Definition ref_open (filename : string) (flags : Z) (args : list Z)
    (w : ref_world) : Z * ref_world :=
  let n := lowest_free (descriptors w) 0 (size (descriptors w)) in
  match disk w !! filename with
  | Some _ => (n, set_descriptors (<[n := (filename, 0)]> (descriptors w)) w)
  | None =>
      if negb (Z.land flags O_CREAT =? 0) then
        (n, RefWorld (<[filename := EmptyString]> (disk w))
                     (<[n := (filename, 0)]> (descriptors w))
                     (last_errno w) (crt_handler_now w) (crt_report_mode w))
      else (-1, set_errno ENOENT w)
  end.

Definition ref_close (fd : Z) (w : ref_world) : Z * ref_world :=
  match descriptors w !! fd with
  | Some _ => (0, set_descriptors (delete fd (descriptors w)) w)
  | None => (-1, set_errno EBADF w)
  end.

(** The largest [off_t]. *)
Definition off_t_max : Z := 2 ^ 63 - 1.

(** The byte length of the file open at a descriptor, when the descriptor
    is open and the length fits [off_t]. *)
Definition byte_length (w : ref_world) (fd : Z) : option Z :=
  match descriptors w !! fd with
  | Some (path, _) =>
      let n := Z.of_nat (String.length (default EmptyString (disk w !! path))) in
      if n <=? off_t_max then Some n else None
  | None => None
  end.

(** The error code of a query of the length that fails. *)
Definition query_errno (w : ref_world) (fd : Z) : Z :=
  match descriptors w !! fd with
  | Some _ => EOVERFLOW
  | None => EBADF
  end.

(** The read/write position of a descriptor. *)
Definition cursor (w : ref_world) (fd : Z) : option Z :=
  snd <$> descriptors w !! fd.

(** [lseek(fd, pos, SEEK_SET)]. *)
Definition seek (fd pos : Z) (w : ref_world) : ref_world :=
  match descriptors w !! fd with
  | Some (path, _) => set_descriptors (<[fd := (path, pos)]> (descriptors w)) w
  | None => w
  end.

Definition ref_fstat (fd : Z) (w : ref_world) : Z * stat * ref_world :=
  match byte_length w fd with
  | Some n => (0, Stat n, w)
  | None => (-1, Stat 0, set_errno (query_errno w fd) w)
  end.

Definition ref_filelengthi64 (fd : Z) (w : ref_world) : Z * ref_world :=
  match byte_length w fd with
  | Some n => (n, w)
  | None => (-1, set_errno (query_errno w fd) w)
  end.

Definition ref_set_handler (h : crt_handler) (w : ref_world)
    : crt_handler * ref_world :=
  (crt_handler_now w,
   RefWorld (disk w) (descriptors w) (last_errno w) h (crt_report_mode w)).

Definition ref_set_report_mode (report_type mode : Z) (w : ref_world)
    : Z * ref_world :=
  if report_type =? _CRT_ASSERT then
    (crt_report_mode w,
     RefWorld (disk w) (descriptors w) (last_errno w) (crt_handler_now w) mode)
  else (-1, w).

#[export] Instance ref_platform : Platform ref_world := {
  get_errno := last_errno;
  sys_open := ref_open;
  sys_close := ref_close;
  sys_fstat := ref_fstat;
  sys_filelengthi64 := ref_filelengthi64;
  sys_set_thread_local_invalid_parameter_handler := ref_set_handler;
  sys_CrtSetReportMode := ref_set_report_mode
}.

(** A world just after the start of a process: the three standard
    streams are open on the terminal, and there is one file of five
    bytes. *)
Definition ref_boot : ref_world :=
  RefWorld {[ "/dev/tty"%string := EmptyString; "/tmp/a"%string := "hello"%string ]}
           {[ 0 := ("/dev/tty"%string, 0); 1 := ("/dev/tty"%string, 0);
              2 := ("/dev/tty"%string, 0) ]}
           0 crt_default_handler 1.

(** The same with the file open at descriptor 7, read up to its third
    byte. *)
Definition ref_reading : ref_world :=
  set_descriptors (<[7 := ("/tmp/a"%string, 3)]> (descriptors ref_boot)) ref_boot.

(** ** The embedding *)

Section Embedding.
Context {world : Type} `{Platform world}.

Record state := State {
  objs : gmap loc slot;
  os : world
}.

Definition M (A : Type) : Type := state → outcome A * state * list syscall.

Definition ret {A} (a : A) : M A := λ s, (Normal a, s, []).

Definition bind {A B} (m : M A) (k : A → M B) : M B := λ s,
  match m s with
  | (Normal a, s1, l1) =>
      let '(r, s2, l2) := k a s1 in (r, s2, l1 ++ l2)
  | (Thrown e, s1, l1) => (Thrown e, s1, l1)
  | (Fault, s1, l1) => (Fault, s1, l1)
  end.

#[local] Notation "x ← m ; k" := (bind m (λ x, k))
  (at level 20, m at level 100, k at level 200, only parsing).
#[local] Notation "m ;; k" := (bind m (λ _, k))
  (at level 100, k at level 200, right associativity, only parsing).

(** [throw e]. *)
Definition throw {A} (e : system_error) : M A := λ s, (Thrown e, s, []).

(** A failed [assert], or a member access outside the object's lifetime. *)
Definition fault {A} : M A := λ s, (Fault, s, []).

(** [try { m } catch (...) { }]. *)
Definition try_catch_all (m : M unit) : M unit := λ s,
  match m s with
  | (Thrown _, s1, l1) => (Normal tt, s1, l1)
  | r => r
  end.

(** A [noexcept] function: an exception that leaves it calls
    [std::terminate]. *)
Definition noexcept {A} (m : M A) : M A := λ s,
  match m s with
  | (Thrown _, s1, l1) => (Fault, s1, l1)
  | r => r
  end.

(** A local object with a destructor: [dtor] runs when the scope is left,
    by a return or by an exception. *)
Definition scoped {R A} (ctor : M R) (dtor : R → M unit) (body : M A) : M A :=
  bind ctor (λ r s,
    match body s with
    | (Normal a, s1, l1) =>
        let '(r2, s2, l2) := dtor r s1 in
        (match r2 with Normal _ => Normal a | Thrown e => Thrown e | Fault => Fault end,
         s2, l1 ++ l2)
    | (Thrown e, s1, l1) =>
        let '(r2, s2, l2) := dtor r s1 in
        (match r2 with Normal _ => Thrown e | _ => Fault end, s2, l1 ++ l2)
    | (Fault, s1, l1) => (Fault, s1, l1)
    end).

(** *** Access to the store *)

Definition load_fd (this : loc) : M Z := λ s,
  match objs s !! this with
  | Some (Live f) => (Normal (m_fd f), s, [])
  | _ => (Fault, s, [])
  end.

Definition store_fd (this : loc) (v : Z) : M unit := λ s,
  match objs s !! this with
  | Some (Live _) =>
      (Normal tt, State (<[this := Live (File v)]> (objs s)) (os s), [])
  | _ => (Fault, s, [])
  end.

(** A new object at an address no object has had. *)
Definition new_file (f : file) : M loc := λ s,
  let this := fresh (dom (objs s)) in
  (Normal this, State (<[this := Live f]> (objs s)) (os s), []).

Definition end_lifetime (this : loc) : M unit := λ s,
  match objs s !! this with
  | Some (Live _) => (Normal tt, State (<[this := Dead]> (objs s)) (os s), [])
  | _ => (Fault, s, [])
  end.

(** *** Calls into the platform *)

Definition errno : M Z := λ s, (Normal (get_errno (os s)), s, []).

Definition os_open (filename : string) (flags : Z) (args : list Z) : M Z := λ s,
  let '(r, w) := sys_open filename flags args (os s) in
  (Normal r, State (objs s) w, [call_open filename flags args r]).

Definition os_close (fd : Z) : M Z := λ s,
  let '(r, w) := sys_close fd (os s) in
  (Normal r, State (objs s) w, [call_close fd r]).

Definition os_fstat (fd : Z) : M (Z * stat) := λ s,
  let '(r, st, w) := sys_fstat fd (os s) in
  (Normal (r, st), State (objs s) w, [call_fstat fd r]).

Definition os_filelengthi64 (fd : Z) : M Z := λ s,
  let '(r, w) := sys_filelengthi64 fd (os s) in
  (Normal r, State (objs s) w, [call_filelengthi64 fd r]).

Definition os_set_thread_local_invalid_parameter_handler (h : crt_handler)
  : M crt_handler := λ s,
  let '(old, w) := sys_set_thread_local_invalid_parameter_handler h (os s) in
  (Normal old, State (objs s) w, [call_set_invalid_parameter_handler h old]).

Definition os_CrtSetReportMode (report_type mode : Z) : M Z := λ s,
  let '(old, w) := sys_CrtSetReportMode report_type mode (os s) in
  (Normal old, State (objs s) w, [call_CrtSetReportMode report_type mode old]).

(** ** class disable_invalid_parameter_handler *)

Record disable_invalid_parameter_handler := Diph {
  old_handler : crt_handler;
  old_report_mode : Z
}.

Definition diph_ctor : M disable_invalid_parameter_handler :=
  h ← os_set_thread_local_invalid_parameter_handler invalid_parameter_handler;
  m ← os_CrtSetReportMode _CRT_ASSERT 0;
  ret (Diph h m).

Definition diph_dtor (d : disable_invalid_parameter_handler) : M unit :=
  os_CrtSetReportMode _CRT_ASSERT (old_report_mode d);;
  os_set_thread_local_invalid_parameter_handler (old_handler d);;
  ret tt.

(** ** class file *)

(** [static int open_file(const std::string& filename, int flags, TArgs... args)] *)
Definition open_file (filename : string) (flags : Z) (args : list Z) : M Z :=
  fd ← os_open filename flags args;
  if fd <? 0 then
    e ← errno;
    throw (SystemError e ("Error opening file '" +:+ filename +:+ "': "))
  else ret fd.

(** [explicit file(int fd) noexcept] *)
Definition file_ctor (fd : Z) : M loc :=
  noexcept (new_file (File fd)).

(** [file(file&& other) noexcept] *)
Definition file_move_ctor (other : loc) : M loc :=
  noexcept (
    v ← load_fd other;
    this ← new_file (File v);
    store_fd other (-1);;
    ret this).

(** [void close()] *)
Definition close (this : loc) : M unit :=
  v ← load_fd this;
  if 2 <=? v then
    r ← os_close v;
    if negb (r =? 0) then
      store_fd this (-1);;
      e ← errno;
      throw (SystemError e "Error closing file: ")
    else store_fd this (-1)
  else ret tt.

(** [file& operator=(file&& other) noexcept] *)
Definition file_move_assign (this other : loc) : M loc :=
  noexcept (
    (if decide (this = other) then fault else ret tt);;
    try_catch_all (close this);;
    v ← load_fd other;
    store_fd this v;;
    store_fd other (-1);;
    ret this).

(** [~file() noexcept] *)
Definition file_dtor (this : loc) : M unit :=
  noexcept (
    try_catch_all (close this);;
    end_lifetime this).

(** [int fd() const noexcept] *)
Definition fd (this : loc) : M Z :=
  noexcept (load_fd this).

(** [std::size_t file_size() const], the branch compiled without
    [_MSC_VER]. *)
Definition file_size_unix (this : loc) : M Z :=
  v ← load_fd this;
  rs ← os_fstat v;
  if negb (rs.1 =? 0) then
    e ← errno;
    throw (SystemError e "Could not get file size: ")
  else ret (static_cast_size_t (st_size rs.2)).

(** [std::size_t file_size() const], the branch compiled with
    [_MSC_VER]. *)
Definition file_size_msvc (this : loc) : M Z :=
  scoped diph_ctor diph_dtor (
    v ← load_fd this;
    size ← os_filelengthi64 v;
    if size <? 0 then
      e ← errno;
      throw (SystemError e "Could not get file size: ")
    else ret (static_cast_size_t size)).


(** [file_size()] as the preprocessor selects it. *)
Inductive toolchain :=
| msvc
| other_toolchain.

Definition file_size (tc : toolchain) (this : loc) : M Z :=
  match tc with
  | msvc => file_size_msvc this
  | other_toolchain => file_size_unix this
  end.

(** Modelled from the spec: the factory operation [open(path, flags, mode)].
    [open_file] is a protected static member that returns the descriptor;
    the derived classes that pass it to the wrapping constructor are not
    part of file.hpp.  The spec's factory is that composition. *)
Definition open (filename : string) (flags : Z) (args : list Z) : M loc :=
  v ← open_file filename flags args;
  file_ctor v.

(** The three parts of a run: what it returned or threw, the state it left
    and the platform calls it made. *)
Definition result_of {A} (x : outcome A * state * list syscall) : outcome A := x.1.1.
Definition state_after {A} (x : outcome A * state * list syscall) : state := x.1.2.
Definition calls_of {A} (x : outcome A * state * list syscall) : list syscall := x.2.

(** ** What an instance holds *)

(** The handle value stored in the object at [a], when [a] is within its
    lifetime. *)
Definition held (s : state) (a : loc) : option Z :=
  match objs s !! a with
  | Some (Live f) => Some (m_fd f)
  | _ => None
  end.

(** The sentinel. *)
Definition sentinel : Z := -1.

(** The two reserved standard-stream values. *)
Definition reserved (v : Z) : Prop := v = 0 ∨ v = 1.

Definition is_empty (s : state) (a : loc) : Prop := held s a = Some sentinel.

Definition owning (s : state) (a : loc) : Prop :=
  ∃ v, held s a = Some v ∧ v ≠ sentinel.

(** The descriptors passed to [::close] in a log. *)
Definition closed_fds (l : list syscall) : list Z :=
  omap (λ c, match c with call_close v _ => Some v | _ => None end) l.

(** The [::close] calls of a log that failed. *)
Definition close_failed (l : list syscall) : Prop :=
  ∃ v r, call_close v r ∈ l ∧ r ≠ 0.

Definition close_succeeded (l : list syscall) : Prop :=
  ∀ v r, call_close v r ∈ l → r = 0.

(** ** Sequences of operations on objects *)

(** The operations a program applies to [file] objects.  An exception that
    leaves [close] or [open] is caught by the program, which goes on; a
    fault ends the run. *)
Inductive cmd :=
| Wrap (v : Z)
| Open (filename : string) (flags : Z) (args : list Z)
| MoveConstruct (src : loc)
| MoveAssign (dst src : loc)
| Close (x : loc)
| Destroy (x : loc).

Definition exec (c : cmd) : M unit :=
  match c with
  | Wrap v => file_ctor v;; ret tt
  | Open filename flags args => open filename flags args;; ret tt
  | MoveConstruct src => file_move_ctor src;; ret tt
  | MoveAssign dst src => file_move_assign dst src;; ret tt
  | Close x => close x
  | Destroy x => file_dtor x
  end.

Record step := Step {
  st_cmd : cmd;
  st_pre : state;
  st_outcome : outcome unit;
  st_calls : list syscall;
  st_post : state
}.

Fixpoint run (cs : list cmd) (s : state) : list step :=
  match cs with
  | [] => []
  | c :: cs' =>
      let '(r, s', l) := exec c s in
      Step c s r l s' ::
        match r with
        | Fault => []
        | _ => run cs' s'
        end
  end.

(** The object whose member function a command calls [close] from. *)
Definition closer (c : cmd) : option loc :=
  match c with
  | Close x | Destroy x | MoveAssign x _ => Some x
  | _ => None
  end.

(** The descriptors handed to [::close] by the instance at [a] in a step. *)
Definition closes_of (a : loc) (st : step) : list Z :=
  if decide (closer (st_cmd st) = Some a) then closed_fds (st_calls st) else [].

(** The instance at [a] is the source of the move. *)
Definition moves_out (a : loc) (c : cmd) : Prop :=
  match c with
  | MoveConstruct src => src = a
  | MoveAssign dst src => src = a ∧ dst ≠ a
  | _ => False
  end.

(** The handle an instance owns and has not handed to [::close]: none
    when it holds the sentinel. *)
Definition token_of (v : Z) : option Z :=
  if decide (v = sentinel) then None else Some v.

(** The token of [a] after a step: a move assignment into [a] takes over
    what the source held, a move out of [a] passes the token on, a
    [::close] call uses it up. *)
Definition next_token (a : loc) (tok : option Z) (st : step) : option Z :=
  match st_cmd st with
  | MoveAssign dst src =>
      if decide (dst = a ∧ src ≠ a) then
        match held (st_pre st) src with
        | Some w => token_of w
        | None => None
        end
      else if decide (src = a ∧ dst ≠ a) then None
      else tok
  | MoveConstruct src => if decide (src = a) then None else tok
  | _ => match closes_of a st with [] => tok | _ => None end
  end.

(** The monitor of the instance at [a]: every [::close] call the instance
    makes is on the token it has at that moment, a step makes at most one,
    and the call uses the token up. *)
Fixpoint closes_at_most_once (a : loc) (tok : option Z) (tr : list step) : bool :=
  match tr with
  | [] => true
  | st :: tr' =>
      match closes_of a st with
      | [] => closes_at_most_once a (next_token a tok st) tr'
      | [v] => bool_decide (tok = Some v)
               && closes_at_most_once a (next_token a None st) tr'
      | _ => false
      end
  end.

(** The token is the one of the value the instance at [a] holds; an
    instance whose lifetime has ended has nothing to track. *)
Definition tracks (a : loc) (s : state) (tok : option Z) : Prop :=
  match objs s !! a with
  | Some (Live f) => tok = token_of (m_fd f)
  | Some Dead => True
  | None => False
  end.

(** The transitions between owning and empty as the state machine of the
    spec lists them, for the steps that do not fault. *)
Definition spec_transition (a : loc) (st : step) : Prop :=
  st_outcome st ≠ Fault →
  (owning (st_pre st) a → is_empty (st_post st) a →
     st_cmd st = Close a ∨ st_cmd st = Destroy a ∨ moves_out a (st_cmd st))
  ∧ (is_empty (st_pre st) a → owning (st_post st) a →
     (∃ v, st_cmd st = Wrap v) ∨ (∃ f fl ar, st_cmd st = Open f fl ar)
     ∨ ∃ src, st_cmd st = MoveAssign a src).

(** The transitions as the code makes them: a move assignment from an
    empty source also takes an owning destination to empty. *)
Definition code_transition (a : loc) (st : step) : Prop :=
  st_outcome st ≠ Fault →
  (owning (st_pre st) a → is_empty (st_post st) a →
     st_cmd st = Close a ∨ st_cmd st = Destroy a ∨ moves_out a (st_cmd st)
     ∨ ∃ src, st_cmd st = MoveAssign a src ∧ is_empty (st_pre st) src)
  ∧ (is_empty (st_pre st) a → owning (st_post st) a →
     ∃ src, st_cmd st = MoveAssign a src ∧ owning (st_pre st) src)
  ∧ (held (st_pre st) a = None → is_Some (held (st_post st) a) →
     (∃ v, st_cmd st = Wrap v) ∨ (∃ f fl ar, st_cmd st = Open f fl ar)
     ∨ (∃ src, st_cmd st = MoveConstruct src)).

(** The calls of [file_size()] are the query on the stored descriptor and,
    around it, the switches of the C runtime's parameter validation. *)
Definition size_query_only (v : Z) (c : syscall) : Prop :=
  match c with
  | call_fstat v' _ | call_filelengthi64 v' _ => v' = v
  | call_set_invalid_parameter_handler _ _ | call_CrtSetReportMode _ _ _ => True
  | call_open _ _ _ _ | call_close _ _ => False
  end.

(** What a platform must do for a query of the file length to mean
    something: [len w v] is the byte length of the file open at descriptor
    [v] in [w] (none when [v] is not an open file) and [err w v] the error
    code of a query that fails.  Both queries report them, and the calls
    that switch the C runtime's parameter validation off and on leave them
    alone. *)
Record Conforms (len : world → Z → option Z) (err : world → Z → Z) : Prop := {
  len_range : ∀ w v n, len w v = Some n → 0 ≤ n < 2 ^ 63;
  fstat_reports : ∀ w v n, len w v = Some n →
    ∃ w', sys_fstat v w = (0, Stat n, w');
  fstat_fails : ∀ w v, len w v = None →
    ∃ rc st w', sys_fstat v w = (rc, st, w') ∧ rc ≠ 0 ∧ get_errno w' = err w v;
  filelength_reports : ∀ w v n, len w v = Some n →
    ∃ w', sys_filelengthi64 v w = (n, w');
  filelength_fails : ∀ w v, len w v = None →
    ∃ rc w', sys_filelengthi64 v w = (rc, w') ∧ rc < 0 ∧ get_errno w' = err w v;
  handler_keeps : ∀ h w v,
    len (sys_set_thread_local_invalid_parameter_handler h w).2 v = len w v
    ∧ err (sys_set_thread_local_invalid_parameter_handler h w).2 v = err w v;
  report_mode_keeps : ∀ t m w v,
    len (sys_CrtSetReportMode t m w).2 v = len w v
    ∧ err (sys_CrtSetReportMode t m w).2 v = err w v
}.

(** ** Ownership across objects *)

(** No two live objects hold the same handle value, the sentinel apart. *)
Definition exclusive (s : state) : Prop :=
  ∀ a b v, a ≠ b → held s a = Some v → held s b = Some v → v = sentinel.

(** The commands that take a handle from outside the store of objects,
    and what they must not do for ownership to stay exclusive: wrap, or
    be given by the platform's open, a descriptor some live object
    holds. *)
Definition acquires_unheld (c : cmd) (s : state) : Prop :=
  match c with
  | Wrap v => v ≠ sentinel → ∀ a, held s a ≠ Some v
  | Open filename flags args =>
      ∀ a, held s a ≠ Some (sys_open filename flags args (os s)).1
  | _ => True
  end.

(** A command that takes no handle from outside. *)
Definition transfers_only (c : cmd) : Prop :=
  match c with
  | Wrap _ | Open _ _ _ => False
  | _ => True
  end.

(** The objects a command names. *)
Definition mentions (c : cmd) (a : loc) : Prop :=
  match c with
  | Wrap _ | Open _ _ _ => False
  | MoveConstruct src => src = a
  | MoveAssign dst src => dst = a ∨ src = a
  | Close x | Destroy x => x = a
  end.

(** The C runtime keeps the invalid-parameter handler of the thread and
    the report mode of [_CRT_ASSERT] as two registers: a call that sets
    one returns what it held and leaves the other, and the query of the
    file length leaves both. *)
Record CrtRegisters (handler_of : world → crt_handler) (mode_of : world → Z)
    : Prop := {
  set_handler_returns : ∀ h w,
    (sys_set_thread_local_invalid_parameter_handler h w).1 = handler_of w;
  set_handler_sets : ∀ h w,
    handler_of (sys_set_thread_local_invalid_parameter_handler h w).2 = h
    ∧ mode_of (sys_set_thread_local_invalid_parameter_handler h w).2 = mode_of w;
  set_mode_returns : ∀ m w,
    (sys_CrtSetReportMode _CRT_ASSERT m w).1 = mode_of w;
  set_mode_sets : ∀ m w,
    mode_of (sys_CrtSetReportMode _CRT_ASSERT m w).2 = m
    ∧ handler_of (sys_CrtSetReportMode _CRT_ASSERT m w).2 = handler_of w;
  query_keeps_registers : ∀ v w,
    handler_of (sys_filelengthi64 v w).2 = handler_of w
    ∧ mode_of (sys_filelengthi64 v w).2 = mode_of w
}.

(** A step that faulted has nothing to show about the state it left. *)
Ltac faulted := simpl; let Hnf := fresh in intros Hnf; by destruct Hnf.

(** ** Running the member functions *)

Lemma held_Some s a v : held s a = Some v ↔ objs s !! a = Some (Live (File v)).
Proof.
  unfold held. destruct (objs s !! a) as [[[w]|]|]; simpl; split; intros E;
    by simplify_eq.
Qed.

Lemma held_insert_eq m w a v : held (State (<[a := Live (File v)]> m) w) a = Some v.
Proof. unfold held; simpl. by rewrite lookup_insert_eq. Qed.

Lemma held_insert_ne m w a b x :
  a ≠ b → held (State (<[b := x]> m) w) a = held (State m w) a.
Proof. intros ?. unfold held; simpl. by rewrite lookup_insert_ne. Qed.

Lemma held_os m w w' a : held (State m w) a = held (State m w') a.
Proof. done. Qed.

Lemma result_of_eq {A} (r : outcome A) s l : result_of (r, s, l) = r.
Proof. done. Qed.

Lemma state_after_eq {A} (r : outcome A) s l : state_after (r, s, l) = s.
Proof. done. Qed.

Lemma calls_of_eq {A} (r : outcome A) s l : calls_of (r, s, l) = l.
Proof. done. Qed.

Lemma state_eta (s : state) : State (objs s) (os s) = s.
Proof. by destruct s. Qed.

(** [close] on an instance that holds [v]. *)
Lemma close_run s this v :
  held s this = Some v →
  close this s =
    if 2 <=? v then
      (if (sys_close v (os s)).1 =? 0 then Normal tt
       else Thrown (SystemError (get_errno (sys_close v (os s)).2)
                                "Error closing file: "),
       State (<[this := Live (File (-1))]> (objs s)) (sys_close v (os s)).2,
       [call_close v (sys_close v (os s)).1])
    else (Normal tt, s, []).
Proof.
  intros Hv. apply held_Some in Hv.
  unfold close, bind, load_fd. rewrite Hv; simpl.
  destruct (2 <=? v); [|done].
  unfold os_close. destruct (sys_close v (os s)) as [r w]; simpl.
  destruct (r =? 0); simpl; unfold store_fd; simpl; by rewrite Hv.
Qed.

Lemma close_dead s this : held s this = None → close this s = (Fault, s, []).
Proof.
  unfold held, close, bind, load_fd.
  by destruct (objs s !! this) as [[[w]|]|].
Qed.

Lemma fd_run s this v : held s this = Some v → fd this s = (Normal v, s, []).
Proof.
  intros Hv. apply held_Some in Hv. unfold fd, noexcept, load_fd. by rewrite Hv.
Qed.

(** ** Explicit close *)

(** C5: on an instance that holds the sentinel or one of the two reserved
    standard-stream values, [close()] makes no platform call, changes
    nothing and returns normally. *)
Theorem close_noop_on_empty_or_reserved (s : state) (this : loc) (v : Z) :
  held s this = Some v →
  v = sentinel ∨ reserved v →
  close this s = (Normal tt, s, []).
Proof.
  intros Hv Hr. rewrite (close_run _ _ _ Hv).
  assert (v < 2) as Hlt by (unfold sentinel, reserved in Hr; lia).
  by rewrite (proj2 (Z.leb_gt 2 v) Hlt).
Qed.

(** C10: on an instance whose stored value is below 2 (the sentinel, a
    reserved value or any other negative value, also one given to the
    wrapping constructor) [close()] makes no platform call, returns
    normally and leaves the stored value as it is, so that [fd()] still
    returns that value afterwards. *)
Theorem close_below_two_keeps_value (s : state) (this : loc) (v : Z) :
  held s this = Some v →
  v < 2 →
  close this s = (Normal tt, s, [])
  ∧ result_of (fd this (state_after (close this s))) = Normal v
  ∧ (let x := file_ctor v s in
     ∃ a, result_of x = Normal a
          ∧ close a (state_after x) = (Normal tt, state_after x, [])
          ∧ held (state_after x) a = Some v).
Proof.
  intros Hv Hlt.
  assert (∀ s' a, held s' a = Some v → close a s' = (Normal tt, s', [])) as Hc.
  { intros s' a Ha. rewrite (close_run _ _ _ Ha).
    by rewrite (proj2 (Z.leb_gt 2 v) Hlt). }
  split; [by apply Hc|]. split.
  - rewrite (Hc _ _ Hv). unfold state_after; simpl. by rewrite (fd_run _ _ _ Hv).
  - simpl. exists (fresh (dom (objs s))).
    unfold file_ctor, noexcept, new_file, result_of, state_after; simpl.
    split; [done|].
    assert (held (State (<[fresh (dom (objs s)) := Live (File v)]> (objs s)) (os s))
                 (fresh (dom (objs s))) = Some v) as Hn by apply held_insert_eq.
    split; [by apply Hc | done].
Qed.

(** A [close()] during which the platform's close failed had a
    descriptor of at least 2 to close, and throws. *)
Lemma close_failed_throws s this v :
  held s this = Some v →
  close_failed (calls_of (close this s)) →
  2 ≤ v
  ∧ (sys_close v (os s)).1 ≠ 0
  ∧ close this s =
      (Thrown (SystemError (get_errno (sys_close v (os s)).2)
                           "Error closing file: "),
       State (<[this := Live (File (-1))]> (objs s)) (sys_close v (os s)).2,
       [call_close v (sys_close v (os s)).1]).
Proof.
  intros Hv. rewrite (close_run _ _ _ Hv).
  destruct (Z.leb_spec 2 v) as [Hge|Hlt].
  - unfold close_failed, calls_of; simpl.
    intros (v' & r & Hin & Hr). apply list_elem_of_singleton in Hin.
    injection Hin as -> ->.
    by rewrite (proj2 (Z.eqb_neq _ _) Hr).
  - intros (v' & r & Hin & _). by apply not_elem_of_nil in Hin.
Qed.

(** C1: when the platform's close fails during [close()], the instance
    holds the sentinel in the state in which the exception is thrown, the
    exception carries the error code the failed call left in [errno], and
    a second [close()] does nothing and returns normally. *)
Theorem close_failure_still_releases (s : state) (this : loc) (v : Z) :
  held s this = Some v →
  close_failed (calls_of (close this s)) →
  let x := close this s in
  v ≠ sentinel ∧ ¬ reserved v
  ∧ os (state_after x) = (sys_close v (os s)).2
  ∧ result_of x =
      Thrown (SystemError (get_errno (os (state_after x))) "Error closing file: ")
  ∧ is_empty (state_after x) this
  ∧ close this (state_after x) = (Normal tt, state_after x, []).
Proof.
  intros Hv Hf x. subst x.
  destruct (close_failed_throws _ _ _ Hv Hf) as (Hge & _ & ->).
  rewrite result_of_eq, !state_after_eq. simpl.
  split; [unfold sentinel; lia|]. split; [unfold reserved; lia|].
  split; [done|]. split; [done|].
  assert (held (State (<[this := Live (File (-1))]> (objs s))
                      (sys_close v (os s)).2) this = Some sentinel) as He
    by apply held_insert_eq.
  split; [done|].
  by rewrite (close_run _ _ _ He).
Qed.

(** C2, as the code has it: on an instance that holds a descriptor that is
    at least 2, a [close()] during which the platform's close does not fail
    returns normally, has handed that descriptor to the platform once, and
    [fd()] returns the sentinel afterwards. *)
Theorem close_once_succeeds (s : state) (this : loc) (v : Z) :
  held s this = Some v →
  2 ≤ v →
  close_succeeded (calls_of (close this s)) →
  let x := close this s in
  result_of x = Normal tt
  ∧ calls_of x = [call_close v 0]
  ∧ result_of (fd this (state_after x)) = Normal sentinel.
Proof.
  intros Hv Hge Hok x. subst x. revert Hok. rewrite (close_run _ _ _ Hv).
  rewrite (proj2 (Z.leb_le 2 v) Hge).
  unfold close_succeeded, calls_of, result_of, state_after; simpl. intros Hok.
  rewrite (Hok v (sys_close v (os s)).1) by apply list_elem_of_here. simpl.
  split; [done|]. split; [done|].
  by erewrite fd_run by apply held_insert_eq.
Qed.

(** ** Destructor and moves *)

Lemma close_result_cases s this v :
  held s this = Some v →
  (∃ e, result_of (close this s) = Thrown e) ∨ result_of (close this s) = Normal tt.
Proof.
  intros Hv. rewrite (close_run _ _ _ Hv). unfold result_of.
  destruct (2 <=? v); simpl; [|by right].
  destruct (_ =? 0); simpl; [by right | left; eauto].
Qed.

(** After [close()] the object is still within its lifetime, and other
    objects are as they were. *)
Lemma close_held_this s this v :
  held s this = Some v →
  held (state_after (close this s)) this = Some (if 2 <=? v then -1 else v).
Proof.
  intros Hv. rewrite (close_run _ _ _ Hv). unfold state_after.
  destruct (2 <=? v); simpl; [apply held_insert_eq | done].
Qed.

Lemma close_objs s this v :
  held s this = Some v →
  objs (state_after (close this s)) =
    if 2 <=? v then <[this := Live (File (-1))]> (objs s) else objs s.
Proof.
  intros Hv. rewrite (close_run _ _ _ Hv). unfold state_after.
  by destruct (2 <=? v).
Qed.

Lemma close_held_other s this v a :
  held s this = Some v → a ≠ this →
  held (state_after (close this s)) a = held s a.
Proof.
  intros Hv Hne. unfold held at 1. rewrite (close_objs _ _ _ Hv).
  destruct (2 <=? v); [by rewrite lookup_insert_ne|done].
Qed.

(** The destructor is [close()] with the exception dropped, and then the
    end of the lifetime. *)
Lemma file_dtor_run s this v :
  held s this = Some v →
  let c := close this s in
  file_dtor this s =
    (Normal tt,
     State (<[this := Dead]> (objs (state_after c))) (os (state_after c)),
     calls_of c).
Proof.
  intros Hv c. subst c.
  pose proof (close_held_this _ _ _ Hv) as Hh. apply held_Some in Hh.
  pose proof (close_result_cases _ _ _ Hv) as Hr.
  unfold file_dtor, noexcept, bind, try_catch_all, end_lifetime.
  unfold result_of, state_after, calls_of in *.
  destruct (close this s) as [[r s1] l1]; simpl in *.
  destruct Hr as [[e ->] | ->]; rewrite Hh; simpl; by rewrite app_nil_r.
Qed.

(** Move assignment is [close()] on the destination with the exception
    dropped, and then the transfer. *)
Lemma file_move_assign_run s this other v w :
  this ≠ other →
  held s this = Some v →
  held s other = Some w →
  let c := close this s in
  file_move_assign this other s =
    (Normal this,
     State (<[other := Live (File (-1))]>
              (<[this := Live (File w)]> (objs (state_after c))))
           (os (state_after c)),
     calls_of c).
Proof.
  intros Hne Hv Hw c. subst c.
  pose proof (close_held_this _ _ _ Hv) as Hh. apply held_Some in Hh.
  pose proof (close_held_other _ _ _ other Hv (not_eq_sym Hne)) as Ho.
  rewrite Hw in Ho. apply held_Some in Ho.
  pose proof (close_result_cases _ _ _ Hv) as Hr.
  unfold file_move_assign, noexcept, bind, try_catch_all.
  destruct (decide (this = other)) as [|_]; [done|]. unfold ret at 1; simpl.
  unfold result_of, state_after, calls_of in *.
  destruct (close this s) as [[r s1] l1]; simpl in *.
  destruct Hr as [[e ->] | ->]; simpl;
    unfold load_fd, store_fd, ret; simpl; rewrite Ho; simpl;
    rewrite Hh; simpl; rewrite lookup_insert_ne by done; rewrite Ho; simpl;
    by rewrite app_nil_r.
Qed.

Lemma file_move_ctor_run s other w :
  held s other = Some w →
  let this := fresh (dom (objs s)) in
  this ≠ other
  ∧ objs s !! this = None
  ∧ file_move_ctor other s =
      (Normal this,
       State (<[other := Live (File (-1))]> (<[this := Live (File w)]> (objs s)))
             (os s),
       []).
Proof.
  intros Hw this. apply held_Some in Hw.
  assert (objs s !! this = None) as Hfresh.
  { apply not_elem_of_dom. apply is_fresh. }
  assert (this ≠ other) as Hne by (intros ->; congruence).
  split; [done|]. split; [done|].
  unfold file_move_ctor, noexcept, bind, load_fd, new_file, store_fd, ret.
  rewrite Hw; simpl. fold this. rewrite lookup_insert_ne by done.
  by rewrite Hw.
Qed.

(** C3, as the code has it: a move, by construction or by assignment,
    leaves in the destination the value the source held and the sentinel
    in the source.  A move assignment first runs [close()] on the
    destination, in a state in which the source still holds its value: a
    value of at least 2 held by the destination is handed to the
    platform's close, once, and the destination holds the sentinel before
    it takes the value of the source; a value below 2 (a reserved value
    among them) is dropped with no platform call. *)
Theorem move_transfers_ownership (s : state) (b : loc) (w : Z) :
  held s b = Some w →
  (let x := file_move_ctor b s in
   ∃ a, result_of x = Normal a
        ∧ objs s !! a = None
        ∧ held (state_after x) a = Some w
        ∧ is_empty (state_after x) b
        ∧ calls_of x = [])
  ∧ (∀ a v, a ≠ b → held s a = Some v →
     let x := file_move_assign a b s in
     let c := close a s in
     result_of x = Normal a
     ∧ held (state_after x) a = Some w
     ∧ is_empty (state_after x) b
     ∧ calls_of x = calls_of c
     ∧ held (state_after c) b = Some w
     ∧ (2 ≤ v → is_empty (state_after c) a
                ∧ ∃ rc, calls_of x = [call_close v rc])
     ∧ (v < 2 → calls_of x = [])).
Proof.
  intros Hw. split.
  - destruct (file_move_ctor_run _ _ _ Hw) as (Hne & Hfresh & Hrun).
    simpl. exists (fresh (dom (objs s))). rewrite Hrun.
    unfold result_of, state_after, calls_of, is_empty; simpl.
    split; [done|]. split; [done|]. split.
    + rewrite held_insert_ne by done. apply held_insert_eq.
    + split; [apply held_insert_eq | done].
  - intros a v Hne Hv x c. subst x.
    rewrite (file_move_assign_run _ _ _ _ _ Hne Hv Hw). fold c.
    rewrite result_of_eq, !state_after_eq, !calls_of_eq.
    split; [done|]. split.
    { rewrite held_insert_ne by done. apply held_insert_eq. }
    split; [apply held_insert_eq|]. split; [done|]. split.
    { subst c. rewrite (close_held_other _ _ _ b Hv) by done. done. }
    subst c. split.
    + intros Hge. unfold is_empty. rewrite (close_held_this _ _ _ Hv).
      rewrite (close_run _ _ _ Hv). rewrite (proj2 (Z.leb_le 2 v) Hge).
      split; [done|]. by eexists.
    + intros Hlt. rewrite (close_run _ _ _ Hv).
      by rewrite (proj2 (Z.leb_gt 2 v) Hlt).
Qed.

(** C4: the destructor and move assignment always return normally,
    whatever the platform's close does: the exception of a failed close is
    dropped inside them. *)
Theorem cleanup_never_fails (s : state) (this : loc) (v : Z) :
  held s this = Some v →
  result_of (file_dtor this s) = Normal tt
  ∧ (close_failed (calls_of (file_dtor this s)) →
     ∃ e, result_of (close this s) = Thrown e)
  ∧ (∀ other w, this ≠ other → held s other = Some w →
     result_of (file_move_assign this other s) = Normal this).
Proof.
  intros Hv. rewrite (file_dtor_run _ _ _ Hv). split; [done|]. split.
  - unfold calls_of at 1; simpl. intros Hf.
    destruct (close_failed_throws _ _ _ Hv Hf) as (_ & _ & ->). eauto.
  - intros other w Hne Hw.
    by rewrite (file_move_assign_run _ _ _ _ _ Hne Hv Hw).
Qed.

(** ** Opening *)

(** C6: when the platform's open returns a negative value, [open_file]
    and the factory throw a [system_error] with the error code the call
    left in [errno] and a message that contains the path, and the store of
    objects is as before; otherwise [open_file] returns the descriptor and
    the factory a new object that holds it. *)
Theorem open_fails_or_wraps (s : state) (filename : string) (flags : Z)
    (args : list Z) :
  let rc := (sys_open filename flags args (os s)).1 in
  let w := (sys_open filename flags args (os s)).2 in
  let x := open filename flags args s in
  calls_of x = [call_open filename flags args rc]
  ∧ os (state_after x) = w
  ∧ (rc < 0 →
     ∃ e, result_of x = Thrown e
          ∧ result_of (open_file filename flags args s) = Thrown e
          ∧ code e = get_errno w
          ∧ what_arg e = "Error opening file '" +:+ filename +:+ "': "
          ∧ objs (state_after x) = objs s)
  ∧ (0 ≤ rc →
     result_of (open_file filename flags args s) = Normal rc
     ∧ ∃ a, result_of x = Normal a
            ∧ objs s !! a = None
            ∧ held (state_after x) a = Some rc
            ∧ owning (state_after x) a).
Proof.
  intros rc w x. subst rc w x.
  unfold open, open_file, bind, os_open.
  destruct (sys_open filename flags args (os s)) as [rc w]; simpl.
  destruct (Z.ltb_spec rc 0) as [Hneg|Hpos]; simpl.
  - unfold calls_of, state_after, result_of; simpl.
    split; [done|]. split; [done|]. split; [|lia].
    intros _. eexists. repeat split; done.
  - unfold calls_of, state_after, result_of; simpl.
    split; [done|]. split; [done|]. split; [lia|].
    intros _. split; [done|].
    exists (fresh (dom (objs s))). split; [done|]. split.
    { apply not_elem_of_dom. apply is_fresh. }
    split; [apply held_insert_eq|].
    exists rc. split; [apply held_insert_eq | unfold sentinel; lia].
Qed.

(** ** The size of the file *)

Lemma file_size_unix_run s this v :
  held s this = Some v →
  let q := sys_fstat v (os s) in
  file_size_unix this s =
    (if q.1.1 =? 0 then Normal (static_cast_size_t (st_size q.1.2))
     else Thrown (SystemError (get_errno q.2) "Could not get file size: "),
     State (objs s) q.2,
     [call_fstat v q.1.1]).
Proof.
  intros Hv q. subst q. apply held_Some in Hv.
  unfold file_size_unix, bind, load_fd, os_fstat. rewrite Hv; simpl.
  destruct (sys_fstat v (os s)) as [[rc st] w]; simpl.
  by destruct (rc =? 0).
Qed.

Lemma file_size_msvc_run s this v :
  held s this = Some v →
  let h := sys_set_thread_local_invalid_parameter_handler
             invalid_parameter_handler (os s) in
  let m := sys_CrtSetReportMode _CRT_ASSERT 0 h.2 in
  let q := sys_filelengthi64 v m.2 in
  let m' := sys_CrtSetReportMode _CRT_ASSERT m.1 q.2 in
  let h' := sys_set_thread_local_invalid_parameter_handler h.1 m'.2 in
  file_size_msvc this s =
    (if q.1 <? 0
     then Thrown (SystemError (get_errno q.2) "Could not get file size: ")
     else Normal (static_cast_size_t q.1),
     State (objs s) h'.2,
     [call_set_invalid_parameter_handler invalid_parameter_handler h.1;
      call_CrtSetReportMode _CRT_ASSERT 0 m.1;
      call_filelengthi64 v q.1;
      call_CrtSetReportMode _CRT_ASSERT m.1 m'.1;
      call_set_invalid_parameter_handler h.1 h'.1]).
Proof.
  intros Hv h m q m' h'. subst h m q m' h'. apply held_Some in Hv.
  unfold file_size_msvc, scoped, diph_ctor, diph_dtor, bind,
    os_set_thread_local_invalid_parameter_handler, os_CrtSetReportMode,
    load_fd, os_filelengthi64, ret; simpl.
  destruct (sys_set_thread_local_invalid_parameter_handler _ (os s))
    as [h0 w0]; simpl.
  destruct (sys_CrtSetReportMode _CRT_ASSERT 0 w0) as [m0 w1]; simpl.
  rewrite Hv; simpl.
  destruct (sys_filelengthi64 v w1) as [sz w2]; simpl.
  destruct (sz <? 0); simpl;
    destruct (sys_CrtSetReportMode _CRT_ASSERT m0 w2) as [m1 w3]; simpl;
    by destruct (sys_set_thread_local_invalid_parameter_handler h0 w3).
Qed.

Lemma static_cast_size_t_id n : 0 ≤ n < 2 ^ 63 → static_cast_size_t n = n.
Proof.
  intros Hn. unfold static_cast_size_t, size_t_bits.
  apply Z.mod_small. lia.
Qed.

(** On a platform whose queries conform, either branch of [file_size()]
    returns the byte length, or throws the error code of the query. *)
Lemma file_size_result len err (tc : toolchain) s this v :
  Conforms len err →
  held s this = Some v →
  result_of (file_size tc this s) =
    match len (os s) v with
    | Some n => Normal n
    | None => Thrown (SystemError (err (os s) v) "Could not get file size: ")
    end.
Proof.
  intros HC Hv. destruct tc; simpl.
  - rewrite (file_size_msvc_run _ _ _ Hv); simpl. rewrite result_of_eq.
    set (h := sys_set_thread_local_invalid_parameter_handler _ (os s)).
    set (m := sys_CrtSetReportMode _CRT_ASSERT 0 h.2).
    assert (len m.2 v = len (os s) v ∧ err m.2 v = err (os s) v) as [Hl He].
    { destruct (report_mode_keeps _ _ HC _CRT_ASSERT 0 h.2 v) as [E1 E2].
      unfold m. rewrite E1, E2. apply (handler_keeps _ _ HC). }
    destruct (len (os s) v) as [n|] eqn:Hn.
    + destruct (filelength_reports _ _ HC _ _ _ Hl) as [w' ->]; simpl.
      pose proof (len_range _ _ HC _ _ _ Hn) as Hr.
      rewrite (proj2 (Z.ltb_ge n 0)) by lia.
      by rewrite static_cast_size_t_id.
    + destruct (filelength_fails _ _ HC _ _ Hl) as (rc & w' & -> & Hneg & Herr).
      simpl. rewrite (proj2 (Z.ltb_lt rc 0)) by lia. by rewrite Herr, He.
  - rewrite (file_size_unix_run _ _ _ Hv); simpl. rewrite result_of_eq.
    destruct (len (os s) v) as [n|] eqn:Hn.
    + destruct (fstat_reports _ _ HC _ _ _ Hn) as [w' ->]; simpl.
      pose proof (len_range _ _ HC _ _ _ Hn) as Hr.
      by rewrite static_cast_size_t_id.
    + destruct (fstat_fails _ _ HC _ _ Hn) as (rc & st & w' & -> & Hrc & Herr).
      simpl. rewrite (proj2 (Z.eqb_neq rc 0)) by done. by rewrite Herr.
Qed.

(** C7: [file_size()] asks the platform for the metadata of the stored
    descriptor and for nothing else, and leaves every object as it is.
    Where the platform's queries report the byte length of the open file,
    it returns that length, so that two states whose files have the same
    length give the same answer whatever else differs, the cursor
    included; when the query fails it throws a [system_error] with the
    query's error code.  On the object the factory returns, it gives the
    length of the file behind the new descriptor in the state the open
    left. *)
Theorem file_size_is_byte_length (len : world → Z → option Z)
    (err : world → Z → Z) (tc : toolchain) :
  Conforms len err →
  (∀ s this v, held s this = Some v →
     let x := file_size tc this s in
     Forall (size_query_only v) (calls_of x)
     ∧ objs (state_after x) = objs s
     ∧ (∀ n, len (os s) v = Some n → result_of x = Normal n)
     ∧ (len (os s) v = None →
        result_of x =
          Thrown (SystemError (err (os s) v) "Could not get file size: "))
     ∧ (∀ s' this' v' n, held s' this' = Some v' →
        len (os s) v = Some n → len (os s') v' = Some n →
        result_of (file_size tc this' s') = result_of x))
  ∧ (∀ s filename flags args a,
     result_of (open filename flags args s) = Normal a →
     let s1 := state_after (open filename flags args s) in
     held s1 a = Some (sys_open filename flags args (os s)).1
     ∧ os s1 = (sys_open filename flags args (os s)).2
     ∧ ∀ n, len (os s1) (sys_open filename flags args (os s)).1 = Some n →
            result_of (file_size tc a s1) = Normal n).
Proof.
  intros HC. split.
  - intros s this v Hv x. subst x.
    pose proof (file_size_result len err tc _ _ _ HC Hv) as Hres.
    split; [|split; [|split; [|split]]].
    + destruct tc; simpl.
      * rewrite (file_size_msvc_run _ _ _ Hv). unfold calls_of; simpl.
        repeat constructor.
      * rewrite (file_size_unix_run _ _ _ Hv). unfold calls_of; simpl.
        repeat constructor.
    + destruct tc; simpl.
      * by rewrite (file_size_msvc_run _ _ _ Hv).
      * by rewrite (file_size_unix_run _ _ _ Hv).
    + intros n Hn. by rewrite Hres, Hn.
    + intros Hn. by rewrite Hres, Hn.
    + intros s' this' v' n Hv' Hn Hn'.
      rewrite Hres, (file_size_result len err tc _ _ _ HC Hv'). by rewrite Hn, Hn'.
  - intros s filename flags args a Ha s1. subst s1. revert Ha.
    unfold open, open_file, bind, os_open.
    destruct (sys_open filename flags args (os s)) as [rc w]; simpl.
    destruct (rc <? 0); simpl; [done|].
    rewrite result_of_eq, !state_after_eq. intros [= <-].
    assert (held (State (<[fresh (dom (objs s)) := Live (File rc)]> (objs s)) w)
                 (fresh (dom (objs s))) = Some rc) as Hh by apply held_insert_eq.
    split; [done|]. split; [done|]. simpl. intros n Hn.
    rewrite (file_size_result len err tc _ _ _ HC Hh); simpl. by rewrite Hn.
Qed.

(** C9: on a platform whose two queries conform to the same file lengths
    and error codes, the branch compiled with [_MSC_VER] and the other
    branch return the same byte length and throw under the same
    conditions. *)
Theorem file_size_branches_agree (len : world → Z → option Z)
    (err : world → Z → Z) (s : state) (this : loc) (v : Z) :
  Conforms len err →
  held s this = Some v →
  result_of (file_size msvc this s) = result_of (file_size other_toolchain this s)
  ∧ objs (state_after (file_size msvc this s))
    = objs (state_after (file_size other_toolchain this s))
  ∧ ((∃ n, result_of (file_size msvc this s) = Normal n)
     ↔ is_Some (len (os s) v)).
Proof.
  intros HC Hv.
  rewrite !(file_size_result len err _ _ _ _ HC Hv). split; [done|]. split.
  - simpl. rewrite (file_size_msvc_run _ _ _ Hv), (file_size_unix_run _ _ _ Hv).
    done.
  - destruct (len (os s) v) as [n|]; split.
    + eauto.
    + eauto.
    + intros [n [=]].
    + intros [n [=]].
Qed.

(** ** Sequences of operations *)

Lemma bind_ret_tt {A} (m : M A) s :
  bind m (λ _, ret tt) s =
    (match result_of (m s) with
     | Normal _ => Normal tt
     | Thrown e => Thrown e
     | Fault => Fault
     end, state_after (m s), calls_of (m s)).
Proof.
  unfold bind, ret, result_of, state_after, calls_of.
  destruct (m s) as [[[x|e|] s1] l1]; simpl; by rewrite ?app_nil_r.
Qed.

Lemma file_dtor_dead s this :
  held s this = None → file_dtor this s = (Fault, s, []).
Proof.
  intros Hd. unfold file_dtor, noexcept, bind, try_catch_all.
  by rewrite (close_dead _ _ Hd).
Qed.

Lemma file_move_ctor_dead s other :
  held s other = None → file_move_ctor other s = (Fault, s, []).
Proof.
  unfold held, file_move_ctor, noexcept, bind, load_fd.
  by destruct (objs s !! other) as [[[w]|]|].
Qed.

Lemma file_move_assign_self s this :
  file_move_assign this this s = (Fault, s, []).
Proof.
  unfold file_move_assign, noexcept, bind.
  by destruct (decide (this = this)).
Qed.

Lemma file_move_assign_dead_this s this other :
  held s this = None → file_move_assign this other s = (Fault, s, []).
Proof.
  intros Hd. unfold file_move_assign, noexcept, bind, try_catch_all.
  destruct (decide (this = other)); [done|]. unfold ret at 1; simpl.
  by rewrite (close_dead _ _ Hd).
Qed.

Lemma file_move_assign_dead_other s this other v :
  this ≠ other →
  held s this = Some v →
  held s other = None →
  file_move_assign this other s =
    (Fault, state_after (close this s), calls_of (close this s)).
Proof.
  intros Hne Hv Hd.
  pose proof (close_held_other _ _ _ other Hv (not_eq_sym Hne)) as Ho.
  rewrite Hd in Ho.
  pose proof (close_result_cases _ _ _ Hv) as Hr.
  unfold file_move_assign, noexcept, bind, try_catch_all.
  destruct (decide (this = other)) as [|_]; [done|]. unfold ret at 1; simpl.
  unfold result_of, state_after, calls_of, held in *.
  destruct (close this s) as [[r s1] l1]; simpl in *.
  destruct Hr as [[e ->] | ->]; simpl; unfold load_fd;
    destruct (objs s1 !! other) as [[[w]|]|]; simpl; try done;
    by rewrite app_nil_r.
Qed.

Lemma closed_fds_close s this v :
  held s this = Some v →
  closed_fds (calls_of (close this s)) = if 2 <=? v then [v] else [].
Proof.
  intros Hv. rewrite (close_run _ _ _ Hv). by destruct (2 <=? v).
Qed.

Lemma held_cases s a :
  (∃ v, held s a = Some v) ∨ held s a = None.
Proof. destruct (held s a); eauto. Qed.

Lemma tracks_frame a s s' tok :
  objs s' !! a = objs s !! a → tracks a s tok → tracks a s' tok.
Proof. unfold tracks. by intros ->. Qed.

Lemma tracks_live a s tok v :
  held s a = Some v → tracks a s tok ↔ tok = token_of v.
Proof. intros Hv. apply held_Some in Hv. unfold tracks. by rewrite Hv. Qed.

Lemma tracks_in_dom a s tok : tracks a s tok → is_Some (objs s !! a).
Proof. unfold tracks. destruct (objs s !! a); [eauto|done]. Qed.

Lemma tracks_fresh a s tok : tracks a s tok → a ≠ fresh (dom (objs s)).
Proof.
  intros Ht%tracks_in_dom ->. apply elem_of_dom in Ht. by apply is_fresh in Ht.
Qed.

Lemma token_of_ge v : 2 ≤ v → token_of v = Some v.
Proof.
  intros Hv. unfold token_of, sentinel. destruct (decide (v = -1)); [lia|done].
Qed.

(** One step keeps the monitor's token in line with what the instance
    holds, and every [::close] call of the instance is on its token. *)
Lemma exec_step a c s tok :
  tracks a s tok →
  let x := exec c s in
  let st := Step c s (result_of x) (calls_of x) (state_after x) in
  match closes_of a st with
  | [] => result_of x ≠ Fault → tracks a (state_after x) (next_token a tok st)
  | [v] => tok = Some v
           ∧ (result_of x ≠ Fault →
              tracks a (state_after x) (next_token a None st))
  | _ => False
  end.
Proof.
  intros Ht x st. subst st x.
  pose proof (tracks_fresh _ _ _ Ht) as Hfr.
  destruct c as [v|f fl ar|src|dst src|x|x]; unfold next_token, closes_of; simpl.
  - (* Wrap *)
    intros _. rewrite bind_ret_tt.
    unfold file_ctor, noexcept, new_file; simpl. rewrite state_after_eq.
    eapply tracks_frame; [|done]. simpl. by rewrite lookup_insert_ne.
  - (* Open *)
    intros _. rewrite bind_ret_tt, state_after_eq.
    unfold open, open_file, bind, os_open.
    destruct (sys_open f fl ar (os s)) as [rc w]; simpl.
    destruct (rc <? 0); simpl; rewrite state_after_eq.
    + by eapply tracks_frame.
    + eapply tracks_frame; [|done]. simpl. by rewrite lookup_insert_ne.
  - (* MoveConstruct *)
    rewrite bind_ret_tt, result_of_eq, state_after_eq.
    destruct (held_cases s src) as [[w Hw]|Hd].
    + destruct (file_move_ctor_run _ _ _ Hw) as (Hne & _ & ->).
      rewrite state_after_eq. intros _.
      destruct (decide (src = a)) as [->|Hsa].
      * unfold tracks; simpl. by rewrite lookup_insert_eq.
      * eapply tracks_frame; [|done]. simpl.
        by rewrite !lookup_insert_ne.
    + rewrite (file_move_ctor_dead _ _ Hd), result_of_eq. faulted.
  - (* MoveAssign *)
    rewrite bind_ret_tt, result_of_eq, state_after_eq, calls_of_eq.
    destruct (decide (dst = src)) as [->|Hds].
    { rewrite file_move_assign_self, result_of_eq, calls_of_eq.
      destruct (decide (Some src = Some a)); faulted. }
    destruct (held_cases s dst) as [[v Hv]|Hd]; cycle 1.
    { rewrite (file_move_assign_dead_this _ _ _ Hd), result_of_eq, calls_of_eq.
      destruct (decide (Some dst = Some a)); faulted. }
    pose proof (closed_fds_close _ _ _ Hv) as Hcl.
    destruct (held_cases s src) as [[w Hw]|Hd].
    + rewrite (file_move_assign_run _ _ _ _ _ Hds Hv Hw).
      rewrite result_of_eq, state_after_eq, calls_of_eq, Hcl.
      destruct (decide (Some dst = Some a)) as [[= ->]|Hda].
      * apply (tracks_live _ _ _ _ Hv) in Ht.
        rewrite !decide_True by done. rewrite Hw.
        assert (tracks a
          (State (<[src := Live (File (-1))]>
                    (<[a := Live (File w)]> (objs (state_after (close a s)))))
                 (os (state_after (close a s)))) (token_of w)) as Hpost.
        { unfold tracks; simpl. rewrite lookup_insert_ne by done.
          by rewrite lookup_insert_eq. }
        destruct (Z.leb_spec 2 v); [|done].
        split; [|done]. by rewrite Ht, token_of_ge.
      * assert (dst ≠ a) as Hne by congruence.
        rewrite decide_False by tauto. intros _.
        destruct (decide (src = a ∧ dst ≠ a)) as [[-> _]|Hsa].
        -- unfold tracks; simpl. by rewrite lookup_insert_eq.
        -- assert (src ≠ a) by tauto.
           eapply tracks_frame; [|done]. simpl.
           rewrite !lookup_insert_ne by done.
           rewrite (close_objs _ _ _ Hv).
           destruct (2 <=? v); [by rewrite lookup_insert_ne|done].
    + rewrite (file_move_assign_dead_other _ _ _ _ Hds Hv Hd).
      rewrite result_of_eq, calls_of_eq, Hcl.
      destruct (decide (Some dst = Some a)) as [[= ->]|Hda]; [|faulted].
      apply (tracks_live _ _ _ _ Hv) in Ht.
      destruct (Z.leb_spec 2 v); [|faulted].
      split; [|faulted]. by rewrite Ht, token_of_ge.
  - (* Close *)
    destruct (decide (Some x = Some a)) as [[= ->]|Hxa].
    + destruct (held_cases s a) as [[v Hv]|Hd].
      * rewrite (closed_fds_close _ _ _ Hv).
        apply (tracks_live _ _ _ _ Hv) in Ht.
        pose proof (close_held_this _ _ _ Hv) as Hh.
        destruct (Z.leb_spec 2 v).
        -- split; [by rewrite Ht, token_of_ge|]. intros _.
           by apply (tracks_live _ _ _ _ Hh).
        -- intros _. by apply (tracks_live _ _ _ _ Hh).
      * rewrite (close_dead _ _ Hd), result_of_eq. faulted.
    + assert (x ≠ a) as Hne by congruence. intros Hnf.
      destruct (held_cases s x) as [[v Hv]|Hd].
      * eapply tracks_frame; [|done]. rewrite (close_objs _ _ _ Hv).
        destruct (2 <=? v); [by rewrite lookup_insert_ne|done].
      * by rewrite (close_dead _ _ Hd), result_of_eq in Hnf.
  - (* Destroy *)
    destruct (held_cases s x) as [[v Hv]|Hd]; cycle 1.
    { rewrite (file_dtor_dead _ _ Hd), result_of_eq, calls_of_eq.
      destruct (decide (Some x = Some a)); faulted. }
    rewrite (file_dtor_run _ _ _ Hv), result_of_eq, state_after_eq, calls_of_eq.
    rewrite (closed_fds_close _ _ _ Hv).
    destruct (decide (Some x = Some a)) as [[= ->]|Hxa].
    + apply (tracks_live _ _ _ _ Hv) in Ht.
      assert (∀ t, tracks a
        (State (<[a := Dead]> (objs (state_after (close a s))))
               (os (state_after (close a s)))) t) as Hpost.
      { intros t. unfold tracks; simpl. by rewrite lookup_insert_eq. }
      destruct (Z.leb_spec 2 v); [|done].
      split; [|done]. by rewrite Ht, token_of_ge.
    + assert (x ≠ a) as Hne by congruence. intros _.
      eapply tracks_frame; [|done]. simpl. rewrite lookup_insert_ne by done.
      rewrite (close_objs _ _ _ Hv).
      destruct (2 <=? v); [by rewrite lookup_insert_ne|done].
Qed.

Lemma run_cons c cs s :
  run (c :: cs) s =
    Step c s (result_of (exec c s)) (calls_of (exec c s)) (state_after (exec c s))
    :: match result_of (exec c s) with
       | Fault => []
       | _ => run cs (state_after (exec c s))
       end.
Proof.
  simpl. unfold result_of, state_after, calls_of.
  by destruct (exec c s) as [[r s'] l].
Qed.

Lemma run_closes_at_most_once a cs : ∀ s tok,
  tracks a s tok → closes_at_most_once a tok (run cs s) = true.
Proof.
  induction cs as [|c cs IH]; intros s tok Ht; [done|].
  rewrite run_cons. pose proof (exec_step a c s tok Ht) as Hstep.
  simpl in Hstep. cbn [closes_at_most_once].
  destruct (closes_of a _) as [|v [|v' l]].
  - destruct (result_of (exec c s)) eqn:Hr; [apply IH, Hstep; done.. |done].
  - destruct Hstep as [-> Hstep]. rewrite bool_decide_true by done. simpl.
    destruct (result_of (exec c s)) eqn:Hr; [apply IH, Hstep; done.. |done].
  - done.
Qed.

Lemma transition_frame a c s r l s' :
  held s' a = held s a → code_transition a (Step c s r l s').
Proof.
  intros Heq _. unfold owning, is_empty; simpl. rewrite Heq.
  split; [|split].
  - intros (v & Hv & Hne) He. congruence.
  - intros He (v & Hv & Hne). congruence.
  - intros -> [v Hv]. done.
Qed.

Lemma held_frame a s s' : objs s' !! a = objs s !! a → held s' a = held s a.
Proof. unfold held. by intros ->. Qed.

Lemma held_fresh s : held s (fresh (dom (objs s))) = None.
Proof.
  unfold held.
  assert (objs s !! fresh (dom (objs s)) = None) as ->; [|done].
  apply not_elem_of_dom, is_fresh.
Qed.

(** Every step is one of the transitions of [code_transition]. *)
Lemma exec_transition a c s :
  code_transition a
    (Step c s (result_of (exec c s)) (calls_of (exec c s)) (state_after (exec c s))).
Proof.
  destruct c as [v|f fl ar|src|dst src|x|x]; simpl.
  - (* Wrap *)
    rewrite bind_ret_tt, ?result_of_eq, ?state_after_eq, ?calls_of_eq.
    unfold file_ctor, noexcept, new_file; simpl. rewrite state_after_eq.
    destruct (decide (a = fresh (dom (objs s)))) as [->|Hne].
    + intros _. unfold owning, is_empty; simpl. rewrite held_fresh.
      split; [by intros (? & ? & _)|]. split; [done|]. eauto.
    + apply transition_frame, held_frame; simpl. by rewrite lookup_insert_ne.
  - (* Open *)
    rewrite bind_ret_tt, ?result_of_eq, ?state_after_eq, ?calls_of_eq.
    unfold open, open_file, bind, os_open.
    destruct (sys_open f fl ar (os s)) as [rc w]; simpl.
    destruct (rc <? 0); simpl; rewrite state_after_eq.
    + by apply transition_frame, held_frame.
    + destruct (decide (a = fresh (dom (objs s)))) as [->|Hne].
      * intros _. unfold owning, is_empty; simpl. rewrite held_fresh.
        split; [by intros (? & ? & _)|]. split; [done|]. eauto 10.
      * apply transition_frame, held_frame; simpl. by rewrite lookup_insert_ne.
  - (* MoveConstruct *)
    rewrite bind_ret_tt, ?result_of_eq, ?state_after_eq, ?calls_of_eq.
    destruct (held_cases s src) as [[w Hw]|Hd]; cycle 1.
    { rewrite (file_move_ctor_dead _ _ Hd), result_of_eq. intros Hnf. by destruct Hnf. }
    destruct (file_move_ctor_run _ _ _ Hw) as (Hne & _ & ->).
    rewrite ?result_of_eq, ?state_after_eq, ?calls_of_eq.
    destruct (decide (a = src)) as [->|Has].
    + intros _. unfold owning, is_empty; simpl. rewrite held_insert_eq, Hw.
      split; [eauto|]. split; [|done].
      intros _ (v & [= <-] & Hv). done.
    + destruct (decide (a = fresh (dom (objs s)))) as [->|Haf].
      * intros _. unfold owning, is_empty; simpl. rewrite held_fresh.
        split; [by intros (? & ? & _)|]. split; [done|]. eauto 10.
      * apply transition_frame, held_frame; simpl. by rewrite !lookup_insert_ne.
  - (* MoveAssign *)
    rewrite bind_ret_tt, ?result_of_eq, ?state_after_eq, ?calls_of_eq.
    destruct (decide (dst = src)) as [->|Hds].
    { rewrite file_move_assign_self, result_of_eq. intros Hnf. by destruct Hnf. }
    destruct (held_cases s dst) as [[v Hv]|Hd]; cycle 1.
    { rewrite (file_move_assign_dead_this _ _ _ Hd), result_of_eq.
      intros Hnf. by destruct Hnf. }
    destruct (held_cases s src) as [[w Hw]|Hd]; cycle 1.
    { rewrite (file_move_assign_dead_other _ _ _ _ Hds Hv Hd), result_of_eq.
      intros Hnf. by destruct Hnf. }
    rewrite (file_move_assign_run _ _ _ _ _ Hds Hv Hw).
    rewrite ?result_of_eq, ?state_after_eq, ?calls_of_eq.
    destruct (decide (a = dst)) as [->|Had].
    + intros _. unfold owning, is_empty; simpl.
      rewrite held_insert_ne by done. rewrite held_insert_eq, Hv.
      split; [|split].
      * intros _ [= ->]. right; right; right. eauto.
      * intros _ (w' & [= <-] & Hne). eauto.
      * done.
    + destruct (decide (a = src)) as [->|Has].
      * intros _. unfold owning, is_empty; simpl. rewrite held_insert_eq, Hw.
        split; [|split].
        -- intros _ _. right; right; left. done.
        -- intros _ (w' & [= <-] & Hne). done.
        -- done.
      * apply transition_frame, held_frame; simpl.
        rewrite !lookup_insert_ne by done. rewrite (close_objs _ _ _ Hv).
        destruct (2 <=? v); [by rewrite lookup_insert_ne|done].
  - (* Close *)
    destruct (held_cases s x) as [[v Hv]|Hd]; cycle 1.
    { rewrite (close_dead _ _ Hd), result_of_eq. intros Hnf. by destruct Hnf. }
    destruct (decide (a = x)) as [->|Hax].
    + intros _. unfold owning, is_empty; simpl.
      rewrite (close_held_this _ _ _ Hv), Hv.
      split; [eauto|]. split; [|done].
      intros [= ->] (w' & [= <-] & Hne). done.
    + apply transition_frame, held_frame. rewrite (close_objs _ _ _ Hv).
      destruct (2 <=? v); [by rewrite lookup_insert_ne|done].
  - (* Destroy *)
    destruct (held_cases s x) as [[v Hv]|Hd]; cycle 1.
    { rewrite (file_dtor_dead _ _ Hd), result_of_eq. intros Hnf. by destruct Hnf. }
    rewrite (file_dtor_run _ _ _ Hv), ?result_of_eq, ?state_after_eq, ?calls_of_eq.
    destruct (decide (a = x)) as [->|Hax].
    + intros _. unfold owning, is_empty, held; simpl. rewrite lookup_insert_eq.
      split; [done|]. split; [by intros _ (? & ? & _)|]. by intros _ [? ?].
    + apply transition_frame, held_frame; simpl. rewrite lookup_insert_ne by done.
      rewrite (close_objs _ _ _ Hv).
      destruct (2 <=? v); [by rewrite lookup_insert_ne|done].
Qed.

Lemma run_transitions a cs : ∀ s, Forall (code_transition a) (run cs s).
Proof.
  induction cs as [|c cs IH]; intros s; [constructor|].
  rewrite run_cons. constructor; [apply exec_transition|].
  destruct (result_of (exec c s)); [apply IH.. | constructor].
Qed.

(** C8, as the code has it: along every sequence of operations, every
    [::close] call an instance makes is on the handle it owns at that
    moment and uses it up, so that no handle is handed to the platform's
    close twice and none after it was released or moved out; a live
    instance is owning or empty and not both; and the instance goes from
    owning to empty by [close()], by being moved out or by a move
    assignment from an empty source, from empty to owning by a move
    assignment from an owning source, and comes into being by wrapping,
    opening or move construction. *)
Theorem instance_never_double_closes (cs : list cmd) (s : state) (a : loc) (v : Z) :
  held s a = Some v →
  closes_at_most_once a (token_of v) (run cs s) = true
  ∧ Forall (code_transition a) (run cs s)
  ∧ Forall (λ st, ∀ b, is_Some (held (st_post st) b) →
              (owning (st_post st) b ∧ ¬ is_empty (st_post st) b)
              ∨ (is_empty (st_post st) b ∧ ¬ owning (st_post st) b))
           (run cs s).
Proof.
  intros Hv. split; [|split].
  - apply run_closes_at_most_once. by apply (tracks_live _ _ _ _ Hv).
  - apply run_transitions.
  - apply Forall_forall. intros st _ b [w Hw].
    unfold owning, is_empty. rewrite Hw.
    destruct (decide (w = sentinel)) as [->|Hne].
    + right. split; [done|]. by intros (w' & [= <-] & ?).
    + left. split; [eauto|]. by intros [= ->].
Qed.

(** ** Ownership across objects *)

(** The state a command leaves, and the calls it makes, written out. *)
Lemma exec_state c s :
  state_after (exec c s) =
    match c with
    | Wrap v => State (<[fresh (dom (objs s)) := Live (File v)]> (objs s)) (os s)
    | Open f fl ar =>
        if (sys_open f fl ar (os s)).1 <? 0
        then State (objs s) (sys_open f fl ar (os s)).2
        else State (<[fresh (dom (objs s)) :=
                       Live (File (sys_open f fl ar (os s)).1)]> (objs s))
                   (sys_open f fl ar (os s)).2
    | MoveConstruct src =>
        match held s src with
        | Some w => State (<[src := Live (File (-1))]>
                             (<[fresh (dom (objs s)) := Live (File w)]> (objs s)))
                          (os s)
        | None => s
        end
    | MoveAssign dst src =>
        if decide (dst = src) then s
        else match held s dst, held s src with
             | None, _ => s
             | Some _, None => state_after (close dst s)
             | Some _, Some w =>
                 State (<[src := Live (File (-1))]>
                          (<[dst := Live (File w)]>
                             (objs (state_after (close dst s)))))
                       (os (state_after (close dst s)))
             end
    | Close x => state_after (close x s)
    | Destroy x =>
        match held s x with
        | Some _ => State (<[x := Dead]> (objs (state_after (close x s))))
                          (os (state_after (close x s)))
        | None => s
        end
    end.
Proof.
  destruct c as [v|f fl ar|src|dst src|x|x]; simpl.
  - by rewrite bind_ret_tt, state_after_eq.
  - rewrite bind_ret_tt, state_after_eq.
    unfold open, open_file, bind, os_open.
    destruct (sys_open f fl ar (os s)) as [rc w]; simpl.
    by destruct (rc <? 0).
  - rewrite bind_ret_tt, state_after_eq.
    destruct (held s src) as [w|] eqn:Hw.
    + by destruct (file_move_ctor_run _ _ _ Hw) as (_ & _ & ->).
    + by rewrite (file_move_ctor_dead _ _ Hw).
  - rewrite bind_ret_tt, state_after_eq.
    destruct (decide (dst = src)) as [->|Hds].
    { by rewrite file_move_assign_self. }
    destruct (held s dst) as [v|] eqn:Hv.
    + destruct (held s src) as [w|] eqn:Hw.
      * by rewrite (file_move_assign_run _ _ _ _ _ Hds Hv Hw).
      * by rewrite (file_move_assign_dead_other _ _ _ _ Hds Hv Hw).
    + by rewrite (file_move_assign_dead_this _ _ _ Hv).
  - done.
  - destruct (held s x) as [v|] eqn:Hv.
    + by rewrite (file_dtor_run _ _ _ Hv).
    + by rewrite (file_dtor_dead _ _ Hv).
Qed.

Lemma exec_closed_fds c s :
  let closes x := match held s x with
                  | Some v => if 2 <=? v then [v] else []
                  | None => []
                  end in
  closed_fds (calls_of (exec c s)) =
    match c with
    | MoveAssign dst src => if decide (dst = src) then [] else closes dst
    | Close x | Destroy x => closes x
    | _ => []
    end.
Proof.
  destruct c as [v|f fl ar|src|dst src|x|x]; cbv zeta; cbn [exec].
  - by rewrite bind_ret_tt, calls_of_eq.
  - rewrite bind_ret_tt, calls_of_eq.
    unfold open, open_file, bind, os_open.
    destruct (sys_open f fl ar (os s)) as [rc w]; simpl.
    by destruct (rc <? 0).
  - rewrite bind_ret_tt, calls_of_eq.
    destruct (held s src) as [w|] eqn:Hw.
    + by destruct (file_move_ctor_run _ _ _ Hw) as (_ & _ & ->).
    + by rewrite (file_move_ctor_dead _ _ Hw).
  - rewrite bind_ret_tt, calls_of_eq.
    destruct (decide (dst = src)) as [->|Hds].
    { by rewrite file_move_assign_self, calls_of_eq. }
    destruct (held s dst) as [v|] eqn:Hv.
    + rewrite <- (closed_fds_close _ _ _ Hv).
      destruct (held s src) as [w|] eqn:Hw.
      * by rewrite (file_move_assign_run _ _ _ _ _ Hds Hv Hw).
      * by rewrite (file_move_assign_dead_other _ _ _ _ Hds Hv Hw).
    + by rewrite (file_move_assign_dead_this _ _ _ Hv).
  - destruct (held s x) as [v|] eqn:Hv.
    + apply (closed_fds_close _ _ _ Hv).
    + by rewrite (close_dead _ _ Hv).
  - destruct (held s x) as [v|] eqn:Hv.
    + rewrite (file_dtor_run _ _ _ Hv), calls_of_eq.
      apply (closed_fds_close _ _ _ Hv).
    + by rewrite (file_dtor_dead _ _ Hv).
Qed.

(** What the object at [x] holds after [close()] on the object at
    [this]. *)
Lemma close_held s this x :
  held (state_after (close this s)) x =
    match held s this with
    | Some v => if decide (x = this)
                then Some (if 2 <=? v then -1 else v)
                else held s x
    | None => held s x
    end.
Proof.
  destruct (held s this) as [v|] eqn:Hv.
  - destruct (decide (x = this)) as [->|Hne].
    + apply (close_held_this _ _ _ Hv).
    + by apply (close_held_other _ _ _ _ Hv).
  - by rewrite (close_dead _ _ Hv).
Qed.

Lemma held_insert m w a b sl :
  held (State (<[b := sl]> m) w) a =
    if decide (a = b)
    then match sl with Live f => Some (m_fd f) | Dead => None end
    else held (State m w) a.
Proof.
  unfold held; simpl. rewrite lookup_insert.
  destruct (decide (b = a)) as [->|Hne].
  - by rewrite decide_True.
  - by rewrite decide_False.
Qed.

Lemma held_objs (s : state) w a : held (State (objs s) w) a = held s a.
Proof. done. Qed.

(** Where a handle value that an object holds after a command comes from:
    the object held it before, or it is the new object of a wrap, an open
    or a move construction, or the destination of a move assignment; the
    source of a move holds the sentinel afterwards. *)
Lemma exec_provenance c s x v :
  held (state_after (exec c s)) x = Some v →
  v ≠ sentinel →
  held s x = Some v
  ∨ (x = fresh (dom (objs s))
     ∧ (c = Wrap v
        ∨ (∃ f fl ar, c = Open f fl ar ∧ v = (sys_open f fl ar (os s)).1)
        ∨ (∃ src, c = MoveConstruct src ∧ held s src = Some v
                  ∧ held (state_after (exec c s)) src = Some sentinel)))
  ∨ (∃ src, c = MoveAssign x src ∧ src ≠ x ∧ held s src = Some v
            ∧ held (state_after (exec c s)) src = Some sentinel).
Proof.
  rewrite exec_state. unfold sentinel.
  destruct c as [v0|f fl ar|src|dst src|x0|x0].
  - rewrite held_insert. destruct (decide (x = _)) as [->|Hne]; simpl.
    + intros [= ->] _. right; left. eauto.
    + rewrite state_eta. eauto.
  - destruct (_ <? 0).
    + rewrite held_objs. eauto.
    + rewrite held_insert. destruct (decide (x = _)) as [->|Hne]; simpl.
      * intros [= <-] _. right; left. eauto 10.
      * rewrite held_objs. eauto.
  - destruct (held s src) as [w|] eqn:Hw; [|eauto].
    rewrite !held_insert, state_eta.
    destruct (decide (x = src)) as [->|Hxs]; simpl; [by intros [= <-]|].
    destruct (decide (x = _)) as [->|Hxf]; simpl; [|eauto].
    intros [= ->] _. right; left. split; [done|]. right; right.
    exists src. split; [done|]. split; [done|]. apply held_insert_eq.
  - destruct (decide (dst = src)) as [->|Hds]; [eauto|].
    destruct (held s dst) as [v0|] eqn:Hv; [|eauto].
    destruct (held s src) as [w|] eqn:Hw.
    + intros Hx Hne. rewrite !held_insert in Hx.
      destruct (decide (x = src)) as [->|Hxs]; simpl in Hx; [by injection Hx|].
      destruct (decide (x = dst)) as [->|Hxd]; simpl in Hx.
      * injection Hx as ->. right; right. exists src.
        split; [done|]. split; [done|]. split; [done|]. apply held_insert_eq.
      * rewrite ?held_objs, ?state_eta, close_held, Hv in Hx.
        rewrite decide_False in Hx by done. eauto.
    + rewrite close_held, Hv.
      destruct (decide (x = dst)) as [->|Hxd]; [|eauto].
      destruct (2 <=? v0); [by intros [= <-]|]. rewrite Hv. eauto.
  - rewrite close_held.
    destruct (held s x0) as [v0|] eqn:Hv; [|eauto].
    destruct (decide (x = x0)) as [->|Hxd]; [|eauto].
    destruct (2 <=? v0); [by intros [= <-]|]. rewrite Hv. eauto.
  - destruct (held s x0) as [v0|] eqn:Hv; [|eauto].
    rewrite held_insert.
    destruct (decide (x = x0)) as [->|Hxd]; simpl; [done|].
    rewrite ?held_objs, ?state_eta, close_held, Hv.
    rewrite decide_False by done. eauto.
Qed.

Lemma exec_exclusive c s :
  exclusive s → acquires_unheld c s → exclusive (state_after (exec c s)).
Proof.
  intros Hex Hacq a b v Hab Ha Hb.
  destruct (decide (v = sentinel)) as [|Hv]; [done|]. exfalso.
  assert (∀ x y, x ≠ y → held s x = Some v → held s y = Some v → False) as Hex'.
  { intros x y Hxy Hx Hy. apply Hv. by apply (Hex x y). }
  assert (∀ x src, held (state_after (exec c s)) x = Some v →
            held s x = Some v → held s src = Some v →
            held (state_after (exec c s)) src = Some sentinel → False) as Hmoved.
  { intros x src Hx Hx0 Hs0 Hs1. destruct (decide (x = src)) as [->|Hne].
    - rewrite Hs1 in Hx. by injection Hx as <-.
    - by apply (Hex' x src). }
  assert (∀ x, held s x = Some v → x = fresh (dom (objs s)) → False) as Hnew.
  { intros x Hx ->. rewrite held_fresh in Hx. done. }
  destruct (exec_provenance _ _ _ _ Ha Hv)
    as [Ka | [[Fa [Ea | [(f & fl & ar & Ea & Va) | (src & Ea & Ks & Ks')]]]
              | (src & Ea & Hsa & Ks & Ks')]];
  destruct (exec_provenance _ _ _ _ Hb Hv)
    as [Kb | [[Fb [Eb | [(f' & fl' & ar' & Eb & Vb) | (src' & Eb & Kt & Kt')]]]
              | (src' & Eb & Hsb & Kt & Kt')]];
  try (by eapply Hex'); try (by eapply Hnew); try congruence;
  try (by apply (Hmoved a src')); try (by apply (Hmoved b src));
  try (subst c; simpl in Hacq; subst; by (eapply Hacq; eauto)).
Qed.

Lemma exec_no_dangling c s v b :
  exclusive s →
  v ∈ closed_fds (calls_of (exec c s)) →
  held (state_after (exec c s)) b ≠ Some v.
Proof.
  intros Hex Hin Hb.
  assert (∃ x v0, closer c = Some x ∧ held s x = Some v0 ∧ 2 ≤ v0 ∧ v = v0
                  ∧ (∀ src, c = MoveAssign x src → src ≠ x)) as Hcl.
  { rewrite exec_closed_fds in Hin.
    destruct c as [v0|f fl ar|src|dst src|x|x]; simpl in Hin;
      try (by apply not_elem_of_nil in Hin).
    - destruct (decide (dst = src)) as [|Hds]; [by apply not_elem_of_nil in Hin|].
      destruct (held s dst) as [v0|] eqn:Hd; [|by apply not_elem_of_nil in Hin].
      destruct (Z.leb_spec 2 v0); [|by apply not_elem_of_nil in Hin].
      apply list_elem_of_singleton in Hin. exists dst, v0.
      split; [done|]. split; [done|]. split; [done|]. split; [done|].
      intros src' [= <-]. by apply not_eq_sym.
    - destruct (held s x) as [v0|] eqn:Hd; [|by apply not_elem_of_nil in Hin].
      destruct (Z.leb_spec 2 v0); [|by apply not_elem_of_nil in Hin].
      apply list_elem_of_singleton in Hin. by exists x, v0.
    - destruct (held s x) as [v0|] eqn:Hd; [|by apply not_elem_of_nil in Hin].
      destruct (Z.leb_spec 2 v0); [|by apply not_elem_of_nil in Hin].
      apply list_elem_of_singleton in Hin. by exists x, v0. }
  destruct Hcl as (x & v0 & Hc & Hx & Hge & -> & Hself).
  assert (v0 ≠ sentinel) as Hv by (unfold sentinel; lia).
  assert (∀ y z, y ≠ z → held s y = Some v0 → held s z = Some v0 → False) as Hex'.
  { intros y z Hyz Hy Hz. apply Hv. by apply (Hex y z). }
  destruct (exec_provenance _ _ _ _ Hb Hv)
    as [Kb | [[-> [-> | [(f & fl & ar & -> & _) | (src & -> & _)]]]
              | (src & -> & Hsb & Ks & _)]]; try done.
  - destruct (decide (b = x)) as [->|Hne]; [|by apply (Hex' b x)].
    rewrite exec_state in Hb.
    destruct c as [v1|f fl ar|src|dst src|x1|x1]; try done; simpl in Hc;
      injection Hc as ->.
    + destruct (decide (x = src)) as [->|Hds]; [by apply (Hself src)|].
      rewrite Hx in Hb. destruct (held s src) as [w|] eqn:Hw.
      * rewrite !held_insert in Hb. rewrite decide_False in Hb by done.
        rewrite decide_True in Hb by done. simpl in Hb. injection Hb as ->.
        by apply (Hex' x src).
      * rewrite close_held, Hx, decide_True in Hb by done.
        rewrite (proj2 (Z.leb_le 2 v0)) in Hb by done. injection Hb as <-. lia.
    + rewrite close_held, Hx, decide_True in Hb by done.
      rewrite (proj2 (Z.leb_le 2 v0)) in Hb by done. injection Hb as <-. lia.
    + rewrite Hx, held_insert, decide_True in Hb by done. done.
  - simpl in Hc. injection Hc as <-. by apply (Hex' src b).
Qed.

Lemma transfers_only_unheld c s : transfers_only c → acquires_unheld c s.
Proof. by destruct c. Qed.

Lemma run_exclusive cs : ∀ s,
  exclusive s → Forall transfers_only cs →
  Forall (λ st, exclusive (st_pre st) ∧ exclusive (st_post st)) (run cs s).
Proof.
  induction cs as [|c cs IH]; intros s Hex Hcs; [constructor|].
  apply Forall_cons_1 in Hcs as [Hc Hcs]. rewrite run_cons.
  pose proof (exec_exclusive c s Hex (transfers_only_unheld _ _ Hc)) as Hpost.
  constructor; [done|].
  destruct (result_of (exec c s)); [by apply IH.. | constructor].
Qed.

Lemma run_steps cs : ∀ s,
  Forall (λ st, st_calls st = calls_of (exec (st_cmd st) (st_pre st))
                ∧ st_post st = state_after (exec (st_cmd st) (st_pre st)))
         (run cs s).
Proof.
  induction cs as [|c cs IH]; intros s; [constructor|].
  rewrite run_cons. constructor; [done|].
  destruct (result_of (exec c s)); [apply IH.. | constructor].
Qed.

(** X1: ownership stays exclusive.  When no two live objects hold the
    same handle value (the sentinel apart), no command changes that,
    provided a wrap or an open does not bring in a descriptor that a
    live object holds; in particular closes, destructors and moves keep
    it along every run. *)
Theorem ownership_stays_exclusive (s : state) :
  exclusive s →
  (∀ c, acquires_unheld c s → exclusive (state_after (exec c s)))
  ∧ (∀ cs, Forall transfers_only cs →
           Forall (λ st, exclusive (st_post st)) (run cs s)).
Proof.
  intros Hex. split.
  - intros c Hc. by apply exec_exclusive.
  - intros cs Hcs. eapply Forall_impl; [by apply run_exclusive|].
    by intros st [_ ?].
Qed.

(** X2: no live object is left with a closed descriptor.  From a state
    of exclusive ownership, along every run of closes, destructors and
    moves, a descriptor handed to [::close] in a step is held by no live
    object after that step. *)
Theorem closed_descriptor_is_not_held (cs : list cmd) (s : state) :
  exclusive s →
  Forall transfers_only cs →
  Forall (λ st, ∀ v b, v ∈ closed_fds (st_calls st) →
                       held (st_post st) b ≠ Some v)
         (run cs s).
Proof.
  intros Hex Hcs.
  pose proof (run_exclusive cs s Hex Hcs) as H1.
  pose proof (run_steps cs s) as H2.
  rewrite Forall_forall in H1, H2. apply Forall_forall. intros st Hst v b Hin.
  destruct (H1 st Hst) as [Hpre _]. destruct (H2 st Hst) as [Ec Ep].
  rewrite Ec in Hin. rewrite Ep. by apply exec_no_dangling.
Qed.

(** ** How the member functions compose *)

Lemma close_silent s this v :
  held s this = Some v → v < 2 → close this s = (Normal tt, s, []).
Proof.
  intros Hv Hlt. rewrite (close_run _ _ _ Hv).
  by rewrite (proj2 (Z.leb_gt 2 v) Hlt).
Qed.

Lemma file_dtor_silent s this v :
  held s this = Some v → v < 2 →
  file_dtor this s = (Normal tt, State (<[this := Dead]> (objs s)) (os s), []).
Proof.
  intros Hv Hlt. rewrite (file_dtor_run _ _ _ Hv).
  by rewrite (close_silent _ _ _ Hv Hlt).
Qed.

Lemma file_dtor_closed_fds s this v :
  held s this = Some v →
  result_of (file_dtor this s) = Normal tt
  ∧ closed_fds (calls_of (file_dtor this s)) = if 2 <=? v then [v] else [].
Proof.
  intros Hv. rewrite (file_dtor_run _ _ _ Hv), result_of_eq, calls_of_eq.
  split; [done|]. apply (closed_fds_close _ _ _ Hv).
Qed.

(** X3: [close()] is idempotent, and a destructor after it is silent.
    Whatever the first [close()] did, returned or threw, a second
    [close()] makes no platform call, changes nothing and returns
    normally, and so does the destructor. *)
Theorem close_is_idempotent (s : state) (this : loc) (v : Z) :
  held s this = Some v →
  let s1 := state_after (close this s) in
  close this s1 = (Normal tt, s1, [])
  ∧ result_of (file_dtor this s1) = Normal tt
  ∧ calls_of (file_dtor this s1) = [].
Proof.
  intros Hv s1.
  assert (∃ v1, held s1 this = Some v1 ∧ v1 < 2) as (v1 & Hv1 & Hlt).
  { subst s1. rewrite (close_held_this _ _ _ Hv).
    destruct (Z.leb_spec 2 v); eexists; split; try done; lia. }
  split; [by apply (close_silent _ _ v1)|].
  by rewrite (file_dtor_silent _ _ _ Hv1 Hlt).
Qed.

(** X4: [close()] throws exactly when it called the platform's close and
    that call failed; it calls the platform exactly when the value held is
    at least 2, and then once, on that value; it never faults on a live
    object. *)
Theorem close_throws_iff_platform_close_failed (s : state) (this : loc) (v : Z) :
  held s this = Some v →
  ((∃ e, result_of (close this s) = Thrown e)
   ↔ close_failed (calls_of (close this s)))
  ∧ (2 ≤ v ↔ ∃ r, calls_of (close this s) = [call_close v r])
  ∧ (v < 2 ↔ calls_of (close this s) = [])
  ∧ result_of (close this s) ≠ Fault.
Proof.
  intros Hv. rewrite (close_run _ _ _ Hv).
  destruct (Z.leb_spec 2 v) as [Hge|Hlt];
    rewrite ?result_of_eq, ?calls_of_eq.
  - split; [|split; [|split]].
    + unfold close_failed. destruct (Z.eqb_spec (sys_close v (os s)).1 0) as [E|E].
      * split; [by intros [e [=]]|].
        intros (v' & r & Hin & Hr). apply list_elem_of_singleton in Hin.
        injection Hin as -> ->. done.
      * split; [|eauto]. intros _. eexists _, _.
        split; [apply list_elem_of_here | done].
    + split; [eauto | done].
    + split; [lia | done].
    + by destruct (_ =? 0).
  - split; [|split; [|split]].
    + split; [by intros [e [=]]|].
      intros (v' & r & Hin & _). by apply not_elem_of_nil in Hin.
    + split; [lia | by intros [r [=]]].
    + done.
    + done.
Qed.

(** X5: a handle moved by construction is closed once.  After
    [file a{std::move(b)}] the destructor of [b] makes no platform call,
    and the destructor of [a] hands the descriptor to [::close] once (not
    at all when it is below 2), in whichever order the two objects are
    destroyed. *)
Theorem moved_handle_is_closed_once (s : state) (b : loc) (w : Z) :
  held s b = Some w →
  let x := file_move_ctor b s in
  let a := fresh (dom (objs s)) in
  let s1 := state_after x in
  result_of x = Normal a
  ∧ calls_of (file_dtor b s1) = []
  ∧ closed_fds (calls_of (file_dtor a (state_after (file_dtor b s1))))
    = (if 2 <=? w then [w] else [])
  ∧ closed_fds (calls_of (file_dtor a s1)) = (if 2 <=? w then [w] else [])
  ∧ calls_of (file_dtor b (state_after (file_dtor a s1))) = [].
Proof.
  intros Hw x a s1. subst x s1.
  destruct (file_move_ctor_run _ _ _ Hw) as (Hne & _ & ->). fold a in Hne |- *.
  rewrite result_of_eq, state_after_eq.
  set (s1 := State _ _).
  assert (held s1 b = Some (-1)) as Hb by apply held_insert_eq.
  assert (held s1 a = Some w) as Ha.
  { unfold s1. rewrite held_insert_ne by done. apply held_insert_eq. }
  split; [done|]. split; [|split; [|split]].
  - by rewrite (file_dtor_silent _ _ _ Hb) by lia.
  - rewrite (file_dtor_silent _ _ _ Hb) by lia. rewrite state_after_eq.
    apply file_dtor_closed_fds. rewrite held_insert_ne by done. done.
  - by apply file_dtor_closed_fds.
  - assert (held (state_after (file_dtor a s1)) b = Some (-1)) as Hb'.
    { rewrite (file_dtor_run _ _ _ Ha), state_after_eq.
      rewrite held_insert_ne by done.
      rewrite ?held_objs, ?state_eta, (close_held_other _ _ _ _ Ha) by done. done. }
    by rewrite (file_dtor_silent _ _ _ Hb') by lia.
Qed.

Lemma open_run s f fl ar a :
  result_of (open f fl ar s) = Normal a →
  0 ≤ (sys_open f fl ar (os s)).1
  ∧ a = fresh (dom (objs s))
  ∧ held (state_after (open f fl ar s)) a = Some (sys_open f fl ar (os s)).1.
Proof.
  unfold open, open_file, bind, os_open.
  destruct (sys_open f fl ar (os s)) as [rc w]; simpl.
  destruct (Z.ltb_spec rc 0); simpl; [done|].
  rewrite result_of_eq, state_after_eq. intros [= <-].
  split; [done|]. split; [done|]. apply held_insert_eq.
Qed.

(** X6: what is opened is closed by the destructor, unless the platform
    gave descriptor 0 or 1.  The destructor of the object the factory
    returned always returns normally; it hands the descriptor to
    [::close] once when it is at least 2, and when the platform's open
    returned 0 or 1 neither it nor [close()] makes any call, so that the
    descriptor stays open. *)
Theorem open_then_destroy (s : state) (filename : string) (flags : Z)
    (args : list Z) (a : loc) :
  result_of (open filename flags args s) = Normal a →
  let rc := (sys_open filename flags args (os s)).1 in
  let s1 := state_after (open filename flags args s) in
  result_of (file_dtor a s1) = Normal tt
  ∧ closed_fds (calls_of (file_dtor a s1)) = (if 2 <=? rc then [rc] else [])
  ∧ (rc < 2 → calls_of (file_dtor a s1) = [] ∧ close a s1 = (Normal tt, s1, [])).
Proof.
  intros Ha rc s1. destruct (open_run _ _ _ _ _ Ha) as (_ & _ & Hh).
  fold rc s1 in Hh.
  destruct (file_dtor_closed_fds _ _ _ Hh) as [Hr Hc].
  split; [done|]. split; [done|]. intros Hlt.
  split; [by rewrite (file_dtor_silent _ _ _ Hh Hlt) | by apply (close_silent _ _ rc)].
Qed.

(** X7: [file_size()] compiled with [_MSC_VER] leaves the C runtime as it
    found it, on both paths.  It sets the do-nothing handler and report
    mode 0, asks for the length, and puts back the report mode and the
    handler it found, whether the query succeeds or the function throws;
    the query runs with parameter validation off. *)
Theorem msvc_file_size_restores_crt (handler_of : world → crt_handler)
    (mode_of : world → Z) (s : state) (this : loc) (v : Z) :
  CrtRegisters handler_of mode_of →
  held s this = Some v →
  let x := file_size msvc this s in
  handler_of (os (state_after x)) = handler_of (os s)
  ∧ mode_of (os (state_after x)) = mode_of (os s)
  ∧ ∃ q, calls_of x =
           [call_set_invalid_parameter_handler invalid_parameter_handler
              (handler_of (os s));
            call_CrtSetReportMode _CRT_ASSERT 0 (mode_of (os s));
            call_filelengthi64 v q;
            call_CrtSetReportMode _CRT_ASSERT (mode_of (os s)) 0;
            call_set_invalid_parameter_handler (handler_of (os s))
              invalid_parameter_handler]
         ∧ (q < 0 → ∃ e, result_of x = Thrown e)
         ∧ (0 ≤ q → result_of x = Normal (static_cast_size_t q)).
Proof.
  intros HR Hv x. subst x. simpl. rewrite (file_size_msvc_run _ _ _ Hv).
  rewrite result_of_eq, state_after_eq, calls_of_eq. simpl.
  set (h := sys_set_thread_local_invalid_parameter_handler _ (os s)).
  set (m := sys_CrtSetReportMode _CRT_ASSERT 0 h.2).
  set (q := sys_filelengthi64 v m.2).
  set (m' := sys_CrtSetReportMode _CRT_ASSERT m.1 q.2).
  set (h' := sys_set_thread_local_invalid_parameter_handler h.1 m'.2).
  assert (h.1 = handler_of (os s)) as Eh by apply (set_handler_returns _ _ HR).
  destruct (set_handler_sets _ _ HR invalid_parameter_handler (os s)) as [Eh1 Eh2].
  fold h in Eh1, Eh2.
  assert (m.1 = mode_of (os s)) as Em.
  { unfold m. by rewrite (set_mode_returns _ _ HR). }
  destruct (set_mode_sets _ _ HR 0 h.2) as [Em1 Em2]. fold m in Em1, Em2.
  destruct (query_keeps_registers _ _ HR v m.2) as [Eq1 Eq2]. fold q in Eq1, Eq2.
  assert (m'.1 = 0) as Em'.
  { unfold m'. by rewrite (set_mode_returns _ _ HR), Eq2. }
  destruct (set_mode_sets _ _ HR m.1 q.2) as [En1 En2]. fold m' in En1, En2.
  assert (h'.1 = invalid_parameter_handler) as Eh'.
  { unfold h'. by rewrite (set_handler_returns _ _ HR), En2, Eq1, Em2. }
  destruct (set_handler_sets _ _ HR h.1 m'.2) as [Ef1 Ef2]. fold h' in Ef1, Ef2.
  split; [by rewrite Ef1|]. split; [by rewrite Ef2, En1|].
  exists q.1. rewrite Eh, Em, Em', Eh'. split; [done|]. split.
  - intros Hq. rewrite (proj2 (Z.ltb_lt _ _) Hq). eauto.
  - intros Hq. by rewrite (proj2 (Z.ltb_ge _ _) Hq).
Qed.

(** X8: [file_size()] after [close()] asks about the sentinel and not
    about the descriptor that was closed, which the platform may have
    given out again; where the platform has no file at the sentinel it
    throws. *)
Theorem file_size_after_close (tc : toolchain) (s : state) (this : loc) (v : Z) :
  held s this = Some v →
  2 ≤ v →
  let s1 := state_after (close this s) in
  Forall (size_query_only sentinel) (calls_of (file_size tc this s1))
  ∧ (∀ len err, Conforms len err → len (os s1) sentinel = None →
       result_of (file_size tc this s1) =
         Thrown (SystemError (err (os s1) sentinel) "Could not get file size: ")).
Proof.
  intros Hv Hge s1.
  assert (held s1 this = Some sentinel) as H1.
  { subst s1. rewrite (close_held_this _ _ _ Hv).
    by rewrite (proj2 (Z.leb_le 2 v) Hge). }
  split.
  - destruct tc; simpl.
    + rewrite (file_size_msvc_run _ _ _ H1). unfold calls_of; simpl.
      repeat constructor.
    + rewrite (file_size_unix_run _ _ _ H1). unfold calls_of; simpl.
      repeat constructor.
  - intros len err HC Hn.
    by rewrite (file_size_result len err tc _ _ _ HC H1), Hn.
Qed.

Lemma close_objs_other s this a :
  a ≠ this → objs (state_after (close this s)) !! a = objs s !! a.
Proof.
  intros Hne. destruct (held s this) as [v|] eqn:Hv.
  - rewrite (close_objs _ _ _ Hv).
    destruct (2 <=? v); [by rewrite lookup_insert_ne|done].
  - by rewrite (close_dead _ _ Hv).
Qed.

(** X9: a command leaves alone the objects it does not name.  An object
    of the store that is neither the target nor the source of a command
    is as it was after the command, whatever the outcome; and wrapping and
    move construction make no platform call and leave the platform as it
    was. *)
Theorem command_leaves_other_objects (c : cmd) (s : state) (a : loc) :
  is_Some (objs s !! a) →
  ¬ mentions c a →
  objs (state_after (exec c s)) !! a = objs s !! a
  ∧ match c with
    | Wrap _ | MoveConstruct _ =>
        calls_of (exec c s) = [] ∧ os (state_after (exec c s)) = os s
    | _ => True
    end.
Proof.
  intros Ha Hm.
  assert (a ≠ fresh (dom (objs s))) as Hfr.
  { intros ->. apply elem_of_dom in Ha. by apply is_fresh in Ha. }
  rewrite exec_state.
  destruct c as [v|f fl ar|src|dst src|x|x]; cbn [exec mentions] in Hm |- *.
  - rewrite bind_ret_tt, calls_of_eq. simpl. by rewrite lookup_insert_ne.
  - split; [|done]. destruct (_ <? 0); simpl; [done|].
    by rewrite lookup_insert_ne.
  - rewrite bind_ret_tt, calls_of_eq.
    destruct (held s src) as [w|] eqn:Hw.
    + destruct (file_move_ctor_run _ _ _ Hw) as (_ & _ & ->). simpl.
      by rewrite !lookup_insert_ne.
    + by rewrite (file_move_ctor_dead _ _ Hw).
  - split; [|done]. destruct (decide (dst = src)); [done|].
    destruct (held s dst) as [v|] eqn:Hv; [|done].
    assert (a ≠ dst ∧ a ≠ src) as [Had Has].
    { split; intros ->; apply Hm; eauto. }
    destruct (held s src) as [w|] eqn:Hw; simpl.
    + rewrite !lookup_insert_ne by done. by apply close_objs_other.
    + by apply close_objs_other.
  - split; [|done]. apply close_objs_other. congruence.
  - split; [|done]. assert (a ≠ x) by congruence.
    destruct (held s x) as [v|] eqn:Hv; [|done]. simpl.
    rewrite lookup_insert_ne by done. by apply close_objs_other.
Qed.

(** X10: handles moved by assignment are each closed once.  [a = move(b)]
    hands to [::close] what [a] held (when it is at least 2) and nothing
    else; afterwards the destructor of [b] makes no platform call and the
    destructor of [a] hands over what [b] held, once (when it is at
    least 2). *)
Theorem move_assigned_handle_is_closed_once (s : state) (a b : loc) (v w : Z) :
  a ≠ b →
  held s a = Some v →
  held s b = Some w →
  let s1 := state_after (file_move_assign a b s) in
  closed_fds (calls_of (file_move_assign a b s)) = (if 2 <=? v then [v] else [])
  ∧ calls_of (file_dtor b s1) = []
  ∧ closed_fds (calls_of (file_dtor a (state_after (file_dtor b s1))))
    = (if 2 <=? w then [w] else [])
  ∧ closed_fds (calls_of (file_dtor a s1)) = (if 2 <=? w then [w] else [])
  ∧ calls_of (file_dtor b (state_after (file_dtor a s1))) = [].
Proof.
  intros Hne Hv Hw s1. subst s1.
  rewrite (file_move_assign_run _ _ _ _ _ Hne Hv Hw).
  rewrite calls_of_eq, state_after_eq.
  set (s1 := State _ _).
  assert (held s1 b = Some (-1)) as Hb by apply held_insert_eq.
  assert (held s1 a = Some w) as Ha.
  { unfold s1. rewrite held_insert_ne by done. apply held_insert_eq. }
  split; [apply (closed_fds_close _ _ _ Hv)|]. split; [|split; [|split]].
  - by rewrite (file_dtor_silent _ _ _ Hb) by lia.
  - rewrite (file_dtor_silent _ _ _ Hb) by lia. rewrite state_after_eq.
    apply file_dtor_closed_fds. rewrite held_insert_ne by done. done.
  - by apply file_dtor_closed_fds.
  - assert (held (state_after (file_dtor a s1)) b = Some (-1)) as Hb'.
    { rewrite (file_dtor_run _ _ _ Ha), state_after_eq.
      rewrite held_insert_ne by (by apply not_eq_sym).
      rewrite ?held_objs, ?state_eta, (close_held_other _ _ _ _ Ha)
        by (by apply not_eq_sym). done. }
    by rewrite (file_dtor_silent _ _ _ Hb') by lia.
Qed.

End Embedding.

(** ** The reference platform conforms *)

Lemma ref_conforms : Conforms byte_length query_errno.
Proof.
  split.
  - intros w v n. unfold byte_length.
    destruct (descriptors w !! v) as [[path pos]|]; [|done].
    destruct (Z.leb_spec (Z.of_nat (String.length (default EmptyString (disk w !! path))))
                off_t_max) as [Hle|]; [|done].
    intros [= <-]. unfold off_t_max in Hle. lia.
  - intros w v n Hn. exists w. simpl. unfold ref_fstat. by rewrite Hn.
  - intros w v Hn. eexists _, _, _. simpl. unfold ref_fstat. rewrite Hn.
    split; [done|]. split; [lia|done].
  - intros w v n Hn. exists w. simpl. unfold ref_filelengthi64. by rewrite Hn.
  - intros w v Hn. eexists _, _. simpl. unfold ref_filelengthi64. rewrite Hn.
    split; [done|]. split; [lia|done].
  - intros h w v. done.
  - intros t m w v. simpl. unfold ref_set_report_mode.
    by destruct (t =? _CRT_ASSERT).
Qed.

Lemma ref_registers : CrtRegisters crt_handler_now crt_report_mode.
Proof.
  split; intros; simpl; unfold ref_filelengthi64; try done.
  by destruct (byte_length w v).
Qed.

(** Two objects that hold descriptors 7 and 8 own them exclusively. *)
Lemma two_objects_exclusive (w : ref_world) (v1 v2 : Z) :
  v1 ≠ v2 →
  exclusive (State {[0%nat := Live (File v1); 1%nat := Live (File v2)]} w).
Proof.
  intros Hne a b v Hab Ha Hb. apply held_Some in Ha, Hb. simpl in Ha, Hb.
  assert (∀ x : loc,
            ({[0%nat := Live (File v1); 1%nat := Live (File v2)]}
               : gmap loc slot) !! x = Some (Live (File v)) →
               (x = 0%nat ∧ v = v1) ∨ (x = 1%nat ∧ v = v2)) as Hcases.
  { intros x Hx. destruct (decide (x = 0%nat)) as [->|Hx0].
    - rewrite lookup_insert_eq in Hx. left. by simplify_eq.
    - rewrite lookup_insert_ne in Hx by done.
      apply lookup_singleton_Some in Hx as [<- Hx]. right. by simplify_eq. }
  destruct (Hcases _ Ha) as [[-> ->]|[-> ->]],
           (Hcases _ Hb) as [[-> Hv]|[-> Hv]]; congruence.
Qed.

(** ** The theorems at work on the reference platform *)

(** The monitor does reject a trace in which an instance hands the handle
    it held to [::close] in two steps in a row. *)
Example monitor_rejects_double_close :
  let s := State {[0%nat := Live (File 7)]} ref_reading in
  closes_at_most_once 0%nat (Some 7)
    [Step (Close 0%nat) s (Normal tt) [call_close 7 0] s;
     Step (Close 0%nat) s (Normal tt) [call_close 7 (-1)] s] = false.
Proof. reflexivity. Qed.

(** Descriptor 7 is not open: the platform's close fails with [EBADF]. *)
Lemma close_failure_still_releases_witness :
  let s := State {[0%nat := Live (File 7)]} ref_boot in
  result_of (close 0%nat s) = Thrown (SystemError EBADF "Error closing file: ")
  ∧ is_empty (state_after (close 0%nat s)) 0%nat
  ∧ close 0%nat (state_after (close 0%nat s))
    = (Normal tt, state_after (close 0%nat s), []).
Proof.
  intros s.
  destruct (close_failure_still_releases s 0%nat 7) as (_ & _ & _ & Hr & He & Hc).
  - reflexivity.
  - exists 7, (-1). split; [apply list_elem_of_here | lia].
  - split; [rewrite Hr; reflexivity|]. split; [exact He | exact Hc].
Defined.

(** C2 as stated fails on an instance that wraps the standard input: it is
    owning, [close()] returns normally, and [fd()] still returns 0. *)
Lemma close_reserved_not_sentinel :
  let s := State {[0%nat := Live (File 0)]} ref_boot in
  owning s 0%nat
  ∧ close_succeeded (calls_of (close 0%nat s))
  ∧ result_of (close 0%nat s) = Normal tt
  ∧ result_of (fd 0%nat (state_after (close 0%nat s))) = Normal 0
  ∧ result_of (fd 0%nat (state_after (close 0%nat s))) ≠ Normal sentinel.
Proof.
  intros s. split; [|split; [|split; [|split]]].
  - exists 0. split; [reflexivity | unfold sentinel; lia].
  - intros v r Hin. by apply not_elem_of_nil in Hin.
  - reflexivity.
  - reflexivity.
  - intros [=].
Qed.

Lemma close_once_succeeds_witness :
  let s := State {[0%nat := Live (File 7)]} ref_reading in
  result_of (close 0%nat s) = Normal tt
  ∧ calls_of (close 0%nat s) = [call_close 7 0]
  ∧ result_of (fd 0%nat (state_after (close 0%nat s))) = Normal sentinel.
Proof.
  intros s. apply (close_once_succeeds s 0%nat 7).
  - reflexivity.
  - lia.
  - intros v r Hin. apply list_elem_of_singleton in Hin. by injection Hin.
Defined.

(** C3 as stated fails when the destination wraps the standard output: it
    is owning, and a move assignment into it makes no call at all, so
    that descriptor 1 is still open afterwards. *)
Lemma move_assign_leaves_reserved_open :
  let s := State {[0%nat := Live (File 1); 1%nat := Live (File 7)]} ref_reading in
  let x := file_move_assign 0%nat 1%nat s in
  owning s 0%nat
  ∧ owning s 1%nat
  ∧ result_of x = Normal 0%nat
  ∧ held (state_after x) 0%nat = Some 7
  ∧ calls_of x = []
  ∧ (1 ∉ closed_fds (calls_of x))
  ∧ is_Some (descriptors (os (state_after x)) !! 1).
Proof.
  intros s x. split; [|split; [|split; [|split; [|split; [|split]]]]].
  - exists 1. split; [reflexivity | unfold sentinel; lia].
  - exists 7. split; [reflexivity | unfold sentinel; lia].
  - reflexivity.
  - reflexivity.
  - reflexivity.
  - apply not_elem_of_nil.
  - eexists. reflexivity.
Qed.

Lemma move_transfers_ownership_witness :
  let s := State {[0%nat := Live (File 8); 1%nat := Live (File 7)]} ref_reading in
  let x := file_move_assign 0%nat 1%nat s in
  held (state_after x) 0%nat = Some 7
  ∧ is_empty (state_after x) 1%nat
  ∧ (∃ rc, calls_of x = [call_close 8 rc])
  ∧ ∃ a, result_of (file_move_ctor 1%nat s) = Normal a
         ∧ held (state_after (file_move_ctor 1%nat s)) a = Some 7.
Proof.
  intros s x.
  destruct (move_transfers_ownership s 1%nat 7) as [(a & Ha & _ & Hh & _) Hassign];
    [reflexivity|].
  destruct (Hassign 0%nat 8) as (_ & H1 & H2 & _ & _ & H3 & _);
    [discriminate | reflexivity |].
  split; [exact H1|]. split; [exact H2|]. split.
  - apply H3. lia.
  - exists a. split; [exact Ha | exact Hh].
Defined.

(** Descriptor 8 is not open: [close()] throws, the destructor and move
    assignment return normally. *)
Lemma cleanup_never_fails_witness :
  let s := State {[0%nat := Live (File 8); 1%nat := Live (File 7)]} ref_reading in
  result_of (close 0%nat s) = Thrown (SystemError EBADF "Error closing file: ")
  ∧ result_of (file_dtor 0%nat s) = Normal tt
  ∧ result_of (file_move_assign 0%nat 1%nat s) = Normal 0%nat.
Proof.
  intros s. destruct (cleanup_never_fails s 0%nat 8) as (Hd & _ & Hm);
    [reflexivity|].
  split; [reflexivity|]. split; [exact Hd|].
  apply (Hm 1%nat 7); [discriminate | reflexivity].
Defined.

Lemma close_noop_on_empty_or_reserved_witness :
  let s := State {[0%nat := Live (File 1)]} ref_boot in
  close 0%nat s = (Normal tt, s, []).
Proof.
  intros s. apply (close_noop_on_empty_or_reserved s 0%nat 1).
  - reflexivity.
  - right. right. reflexivity.
Defined.

Lemma close_below_two_keeps_value_witness :
  let s := State {[0%nat := Live (File (-5))]} ref_boot in
  close 0%nat s = (Normal tt, s, [])
  ∧ result_of (fd 0%nat (state_after (close 0%nat s))) = Normal (-5).
Proof.
  intros s. destruct (close_below_two_keeps_value s 0%nat (-5)) as (Hc & Hf & _).
  - reflexivity.
  - lia.
  - split; [exact Hc | exact Hf].
Defined.

(** There is no "/tmp/b", and "/tmp/a" opens at the lowest free
    descriptor. *)
Lemma open_fails_or_wraps_witness :
  let s := State ∅ ref_boot in
  (∃ e, result_of (open "/tmp/b" 0 [] s) = Thrown e
        ∧ code e = ENOENT
        ∧ what_arg e = "Error opening file '/tmp/b': "%string
        ∧ objs (state_after (open "/tmp/b" 0 [] s)) = objs s)
  ∧ ∃ a, result_of (open "/tmp/a" 0 [] s) = Normal a
         ∧ held (state_after (open "/tmp/a" 0 [] s)) a = Some 3.
Proof.
  intros s. split.
  - destruct (open_fails_or_wraps s "/tmp/b" 0 []) as (_ & _ & Hfail & _).
    destruct Hfail as (e & He & _ & Hc & Hw & Ho); [by vm_compute|].
    exists e. split; [exact He|]. split; [exact Hc|]. split; [exact Hw | exact Ho].
  - destruct (open_fails_or_wraps s "/tmp/a" 0 []) as (_ & _ & _ & Hok).
    destruct Hok as (_ & a & Ha & _ & Hh & _); [by vm_compute|].
    exists a. split; [exact Ha | exact Hh].
Defined.

(** The file has five bytes, wherever the cursor of the descriptor is. *)
Lemma file_size_is_byte_length_witness :
  let s := State {[0%nat := Live (File 7)]} ref_reading in
  let s' := State {[0%nat := Live (File 7)]} (seek 7 0 ref_reading) in
  cursor (os s) 7 = Some 3
  ∧ cursor (os s') 7 = Some 0
  ∧ result_of (file_size other_toolchain 0%nat s) = Normal 5
  ∧ result_of (file_size other_toolchain 0%nat s') = Normal 5
  ∧ ∃ a, result_of (open "/tmp/a" 0 [] s) = Normal a
         ∧ result_of (file_size other_toolchain a
                        (state_after (open "/tmp/a" 0 [] s))) = Normal 5.
Proof.
  intros s s'.
  destruct (file_size_is_byte_length byte_length query_errno other_toolchain
              ref_conforms) as [Hsize Hopen].
  destruct (Hsize s 0%nat 7) as (_ & _ & Hn & _ & Hsame); [reflexivity|].
  split; [reflexivity|]. split; [reflexivity|]. split; [|split].
  - apply Hn. reflexivity.
  - rewrite (Hsame s' 0%nat 7 5); [apply Hn| | |]; reflexivity.
  - exists 1%nat. split; [reflexivity|].
    destruct (Hopen s "/tmp/a"%string 0 [] 1%nat) as (_ & _ & Hlen); [reflexivity|].
    apply Hlen. reflexivity.
Defined.

Lemma file_size_branches_agree_witness :
  let s := State {[0%nat := Live (File 7); 1%nat := Live (File 9)]} ref_reading in
  result_of (file_size msvc 0%nat s) = result_of (file_size other_toolchain 0%nat s)
  ∧ result_of (file_size msvc 1%nat s) = result_of (file_size other_toolchain 1%nat s).
Proof.
  intros s. split.
  - apply (file_size_branches_agree byte_length query_errno s 0%nat 7 ref_conforms).
    reflexivity.
  - apply (file_size_branches_agree byte_length query_errno s 1%nat 9 ref_conforms).
    reflexivity.
Defined.

(** C8 as stated fails on a move assignment from an empty source: the
    destination goes from owning to empty by an operation that is not a
    close, a destructor or a move out.  The first destination wraps the
    standard input, the second an ordinary descriptor. *)
Lemma move_in_from_empty_empties :
  let s0 := State {[0%nat := Live (File 0); 1%nat := Live (File (-1))]} ref_boot in
  let s7 := State {[0%nat := Live (File 7); 1%nat := Live (File (-1))]} ref_reading in
  ¬ Forall (spec_transition 0%nat) (run [MoveAssign 0%nat 1%nat] s0)
  ∧ ¬ Forall (spec_transition 0%nat) (run [MoveAssign 0%nat 1%nat] s7).
Proof.
  intros s0 s7. split; intros HF; apply Forall_cons_1 in HF as [Hst _];
    (destruct Hst as [Hoe _]; [discriminate|]);
    (destruct Hoe as [Hc|[Hd|Hm]];
      [ eexists; split; [reflexivity | by vm_compute]
      | reflexivity
      | discriminate Hc
      | discriminate Hd
      | destruct Hm as [_ Hne]; by apply Hne ]).
Qed.

Lemma instance_never_double_closes_witness :
  let s := State {[0%nat := Live (File 7); 1%nat := Live (File 2)]} ref_reading in
  let cs := [Close 0%nat; Close 0%nat; MoveAssign 0%nat 1%nat; Destroy 0%nat] in
  closes_at_most_once 0%nat (Some 7) (run cs s) = true
  ∧ Forall (code_transition 0%nat) (run cs s).
Proof.
  intros s cs.
  destruct (instance_never_double_closes cs s 0%nat 7) as (Hm & Ht & _);
    [reflexivity|].
  split; [exact Hm | exact Ht].
Defined.

(** ** The further properties on the reference platform *)

Lemma ownership_stays_exclusive_witness :
  let s := State {[0%nat := Live (File 7); 1%nat := Live (File 8)]} ref_reading in
  exclusive (state_after (exec (Wrap 9) s))
  ∧ Forall (λ st, exclusive (st_post st))
           (run [MoveAssign 0%nat 1%nat; Close 0%nat; Destroy 1%nat] s).
Proof.
  intros s.
  destruct (ownership_stays_exclusive s) as [Hstep Hrun].
  - apply two_objects_exclusive. lia.
  - split.
    + apply Hstep. simpl. intros _ a Ha. apply held_Some in Ha. simpl in Ha.
      destruct (decide (a = 0%nat)) as [->|Ha0].
      * rewrite lookup_insert_eq in Ha. discriminate.
      * rewrite lookup_insert_ne in Ha by done.
        apply lookup_singleton_Some in Ha as [_ Ha]. discriminate.
    + apply Hrun. repeat constructor.
Defined.

Lemma closed_descriptor_is_not_held_witness :
  let s := State {[0%nat := Live (File 7); 1%nat := Live (File 8)]} ref_reading in
  Forall (λ st, ∀ v b, v ∈ closed_fds (st_calls st) → held (st_post st) b ≠ Some v)
         (run [MoveAssign 0%nat 1%nat; Close 0%nat; Destroy 1%nat] s).
Proof.
  intros s. apply (closed_descriptor_is_not_held _ s).
  - apply two_objects_exclusive. lia.
  - repeat constructor.
Defined.

(** Descriptor 8 is not open: the first [close()] throws, the second is
    silent. *)
Lemma close_is_idempotent_witness :
  let s := State {[0%nat := Live (File 8)]} ref_reading in
  let s1 := state_after (close 0%nat s) in
  result_of (close 0%nat s) = Thrown (SystemError EBADF "Error closing file: ")
  ∧ close 0%nat s1 = (Normal tt, s1, [])
  ∧ calls_of (file_dtor 0%nat s1) = [].
Proof.
  intros s s1. destruct (close_is_idempotent s 0%nat 8) as (Hc & _ & Hd);
    [reflexivity|].
  split; [reflexivity|]. split; [exact Hc | exact Hd].
Defined.

Lemma close_throws_iff_platform_close_failed_witness :
  let s := State {[0%nat := Live (File 8)]} ref_reading in
  close_failed (calls_of (close 0%nat s))
  ∧ ∃ r, calls_of (close 0%nat s) = [call_close 8 r].
Proof.
  intros s.
  destruct (close_throws_iff_platform_close_failed s 0%nat 8)
    as (Hthrow & Hcall & _); [reflexivity|].
  split.
  - apply Hthrow. eexists. reflexivity.
  - apply Hcall. lia.
Defined.

Lemma moved_handle_is_closed_once_witness :
  let s := State {[0%nat := Live (File 7)]} ref_reading in
  let s1 := state_after (file_move_ctor 0%nat s) in
  calls_of (file_dtor 0%nat s1) = []
  ∧ closed_fds (calls_of (file_dtor 1%nat (state_after (file_dtor 0%nat s1)))) = [7].
Proof.
  intros s s1.
  destruct (moved_handle_is_closed_once s 0%nat 7) as (_ & Hb & Ha & _);
    [reflexivity|].
  split; [exact Hb | exact Ha].
Defined.

Lemma move_assigned_handle_is_closed_once_witness :
  let s := State {[0%nat := Live (File 8); 1%nat := Live (File 7)]} ref_reading in
  let s1 := state_after (file_move_assign 0%nat 1%nat s) in
  closed_fds (calls_of (file_move_assign 0%nat 1%nat s)) = [8]
  ∧ calls_of (file_dtor 1%nat s1) = []
  ∧ closed_fds (calls_of (file_dtor 0%nat (state_after (file_dtor 1%nat s1)))) = [7].
Proof.
  intros s s1.
  destruct (move_assigned_handle_is_closed_once s 0%nat 1%nat 8 7)
    as (Hm & Hb & Ha & _); [discriminate | reflexivity | reflexivity |].
  split; [exact Hm|]. split; [exact Hb | exact Ha].
Defined.

(** With the standard input closed, the platform gives descriptor 0 to
    the next open, and nothing closes it again. *)
Lemma open_then_destroy_witness :
  let s := State ∅ (set_descriptors (delete 0 (descriptors ref_boot)) ref_boot) in
  let s1 := state_after (open "/tmp/a" 0 [] s) in
  held s1 0%nat = Some 0
  ∧ result_of (file_dtor 0%nat s1) = Normal tt
  ∧ calls_of (file_dtor 0%nat s1) = []
  ∧ is_Some (descriptors (os (state_after (file_dtor 0%nat s1))) !! 0).
Proof.
  intros s s1.
  destruct (open_then_destroy s "/tmp/a"%string 0 [] 0%nat) as (Hr & _ & Hn);
    [reflexivity|].
  destruct Hn as [Hd _]; [by vm_compute|].
  split; [reflexivity|]. split; [exact Hr|]. split; [exact Hd|].
  eexists. reflexivity.
Defined.

(** A program's own handler and report mode are back after the query,
    also when it fails on a descriptor that is not open. *)
Lemma msvc_file_size_restores_crt_witness :
  let w := RefWorld (disk ref_reading) (descriptors ref_reading) 0
                    (crt_user_handler 3) 4 in
  let s := State {[0%nat := Live (File 7); 1%nat := Live (File 9)]} w in
  crt_handler_now (os (state_after (file_size msvc 0%nat s))) = crt_user_handler 3
  ∧ crt_report_mode (os (state_after (file_size msvc 0%nat s))) = 4
  ∧ result_of (file_size msvc 1%nat s)
    = Thrown (SystemError EBADF "Could not get file size: ")
  ∧ crt_handler_now (os (state_after (file_size msvc 1%nat s))) = crt_user_handler 3
  ∧ crt_report_mode (os (state_after (file_size msvc 1%nat s))) = 4.
Proof.
  intros w s.
  destruct (msvc_file_size_restores_crt crt_handler_now crt_report_mode s 0%nat 7
              ref_registers) as (H1 & H2 & _); [reflexivity|].
  destruct (msvc_file_size_restores_crt crt_handler_now crt_report_mode s 1%nat 9
              ref_registers) as (H3 & H4 & _); [reflexivity|].
  split; [exact H1|]. split; [exact H2|]. split; [reflexivity|].
  split; [exact H3 | exact H4].
Defined.

Lemma file_size_after_close_witness :
  let s := State {[0%nat := Live (File 7)]} ref_reading in
  let s1 := state_after (close 0%nat s) in
  calls_of (file_size other_toolchain 0%nat s1) = [call_fstat (-1) (-1)]
  ∧ result_of (file_size other_toolchain 0%nat s1)
    = Thrown (SystemError EBADF "Could not get file size: ").
Proof.
  intros s s1.
  destruct (file_size_after_close other_toolchain s 0%nat 7) as [_ Hthrow];
    [reflexivity | lia |].
  split; [reflexivity|].
  etransitivity;
    [apply (Hthrow byte_length query_errno ref_conforms); reflexivity
    | reflexivity].
Defined.

Lemma command_leaves_other_objects_witness :
  let s := State {[0%nat := Live (File 8); 1%nat := Live (File 7);
                   2%nat := Live (File 5)]} ref_reading in
  objs (state_after (exec (MoveAssign 0%nat 1%nat) s)) !! 2%nat
  = Some (Live (File 5)).
Proof.
  intros s.
  destruct (command_leaves_other_objects (MoveAssign 0%nat 1%nat) s 2%nat)
    as [Hkeep _].
  - eexists. reflexivity.
  - simpl. intros [|]; discriminate.
  - etransitivity; [exact Hkeep | reflexivity].
Defined.
